(** * Compiled CSS-in-JS: the runtime bucket router and the CSS transform

    A shallow embedding of
      - [packages/runtime/src/sheet.tsx]  (style buckets in the document head),
      - [packages/css/src/transform.ts]   ([transformCss] and [groupGlobalRules]),
      - the webpack loader ([pitch] and the output of [compiledLoader]),
    together with the properties their specification states about them.

    The runtime is embedded with what it meets in a browser: a plain
    object answers to the property names of [Object.prototype], and the
    host decides which texts its style sheets take as rules. *)

From stdpp Require Import gmap strings list fin_maps pretty.
From Stdlib Require Import ZArith Ascii.

Open Scope Z_scope.

(** ** JavaScript string primitives used by the runtime

    Strings are sequences of code units; the two files only ever compare
    code units against ASCII punctuation. *)
Module JsString.

(** [s.charCodeAt(i)]; [None] stands for the [NaN] of an index that is out
    of range. *)
Definition charCodeAt (s : string) (i : nat) : option nat :=
  nat_of_ascii <$> String.get i s.

Fixpoint indexOf_from (c : ascii) (s : string) (i : Z) : Z :=
  match s with
  | EmptyString => -1
  | String d s' => if Ascii.eqb d c then i else indexOf_from c s' (i + 1)
  end.

(** [s.indexOf(c)] for a one-character search string: the first position
    of [c], or [-1]. *)
Definition indexOf (s : string) (c : ascii) : Z := indexOf_from c s 0.

Fixpoint str_drop (n : nat) (s : string) : string :=
  match n, s with
  | O, _ => s
  | S n', String _ s' => str_drop n' s'
  | S _, EmptyString => EmptyString
  end.

Fixpoint str_take (n : nat) (s : string) : string :=
  match n, s with
  | O, _ => EmptyString
  | S n', String c s' => String c (str_take n' s')
  | S _, EmptyString => EmptyString
  end.

(** [s.slice(start, stop)]: negative indices count from the end, both are
    clamped to the string, and an empty range gives the empty string. *)
Definition slice (s : string) (start stop : Z) : string :=
  let len := Z.of_nat (String.length s) in
  let from := if start <? 0 then Z.max (len + start) 0 else Z.min start len in
  let to := if stop <? 0 then Z.max (len + stop) 0 else Z.min stop len in
  str_take (Z.to_nat (to - from)) (str_drop (Z.to_nat from) s).

(** The character [c] does not occur in [s]. *)
Fixpoint lacks (c : ascii) (s : string) : bool :=
  match s with
  | EmptyString => true
  | String d s' => negb (Ascii.eqb d c) && lacks c s'
  end.

End JsString.


(** ** The runtime: [sheet.tsx] *)
Module Sheet.
Import JsString.

(** The [Bucket] type of [./types]: the short pseudo names. *)
Inductive Bucket : Set :=
  | BCatchAll      (* ''  *)
  | BLink          (* 'l' *)
  | BVisited       (* 'v' *)
  | BFocusWithin   (* 'w' *)
  | BFocus         (* 'f' *)
  | BFocusVisible  (* 'i' *)
  | BHover         (* 'h' *)
  | BActive        (* 'a' *)
  | BAtRule        (* 'm' *).

Definition bucket_str (b : Bucket) : string :=
  match b with
  | BCatchAll => "" | BLink => "l" | BVisited => "v" | BFocusWithin => "w"
  | BFocus => "f" | BFocusVisible => "i" | BHover => "h" | BActive => "a"
  | BAtRule => "m"
  end.

#[global] Instance Bucket_eq_dec : EqDecision Bucket.
Proof. solve_decision. Defined.

Definition bucket_code (b : Bucket) : nat :=
  match b with
  | BCatchAll => 0 | BLink => 1 | BVisited => 2 | BFocusWithin => 3
  | BFocus => 4 | BFocusVisible => 5 | BHover => 6 | BActive => 7
  | BAtRule => 8
  end%nat.

Definition bucket_of_code (n : nat) : option Bucket :=
  match n with
  | 0 => Some BCatchAll | 1 => Some BLink | 2 => Some BVisited
  | 3 => Some BFocusWithin | 4 => Some BFocus | 5 => Some BFocusVisible
  | 6 => Some BHover | 7 => Some BActive | 8 => Some BAtRule
  | _ => None
  end%nat.

#[global] Instance Bucket_countable : Countable Bucket.
Proof.
  apply (inj_countable bucket_code bucket_of_code).
  intros []; reflexivity.
Defined.

(** What [getStyleBucketName] can return.  Its declared type is [Bucket],
    but [pseudosMap] is a plain object, and [pseudosMap[name]] also finds
    what the object inherits from [Object.prototype]: for such a name the
    function returns that member, which is none of the nine buckets.  Used
    as a key of [styleBucketsInHead] the member is turned into a string of
    its own, different for each member and from every bucket name. *)
Inductive Name : Set :=
  | Known (b : Bucket)
  | Inherited (member : string).

#[global] Instance Name_eq_dec : EqDecision Name.
Proof. solve_decision. Defined.

#[global] Instance Name_countable : Countable Name.
Proof.
  apply (inj_countable'
           (λ k, match k with Known b => inl b | Inherited m => inr m end)
           (λ x, match x with inl b => Known b | inr m => Inherited m end)).
  intros []; reflexivity.
Defined.

(** Ordered style buckets using their short pseudo name. *)
Definition styleBucketOrdering : list Bucket :=
  [ BCatchAll; BLink; BVisited; BFocusWithin; BFocus; BFocusVisible;
    BHover; BActive; BAtRule ].

(** Maps the long pseudo name, cut after its first three characters, to
    the short pseudo name: the own keys of [pseudosMap]. *)
Definition pseudosTable : list (string * Bucket) :=
  [ ("k", BLink); ("ited", BVisited); ("us-within", BFocusWithin);
    ("us", BFocus); ("us-visible", BFocusVisible); ("er", BHover);
    ("ive", BActive) ].

Definition pseudosMap : gmap string Bucket := list_to_map pseudosTable.

(** The property names of [Object.prototype], which every plain object
    answers to; each of them holds a function or an object, so each is
    truthy. *)
Definition objectPrototype : list string :=
  [ "constructor"; "hasOwnProperty"; "isPrototypeOf"; "propertyIsEnumerable";
    "toLocaleString"; "toString"; "valueOf"; "__proto__";
    "__defineGetter__"; "__defineSetter__"; "__lookupGetter__";
    "__lookupSetter__" ].

(** [pseudosMap[name]]: an own key first, then the prototype; [None] is
    [undefined]. *)
Definition pseudosMap_get (name : string) : option Name :=
  match pseudosMap !! name with
  | Some b => Some (Known b)
  | None => if decide (name ∈ objectPrototype) then Some (Inherited name) else None
  end.

(** Gets the bucket depending on the sheet.  Every value that
    [pseudosMap[name]] can find is truthy, so [pseudosMap[name] || '']
    falls back to the catch-all bucket exactly when nothing is found. *)
Definition getStyleBucketName (sheet : string) : Name :=
  if decide (charCodeAt sheet 0 = Some 64%nat) then Known BAtRule
  else if decide (charCodeAt sheet 10 = Some 58%nat) then
    let openBracketIndex := indexOf sheet "{"%char in
    let name := slice sheet 14 openBracketIndex in
    default (Known BCatchAll) (pseudosMap_get name)
  else Known BCatchAll.

(** *** The host document

    Nodes are named by identifiers; the registry and the document head
    hold the same identifiers, as the JavaScript object and the DOM hold
    the same element. *)

(** A [<style>] element: its [nonce] attribute, its text nodes and the
    rules of its [sheet]. *)
Record HTMLStyleElement : Set := mkStyle {
  nonce : option string;
  childNodes : list string;
  cssRules : list string;
}.

Record Document : Type := mkDocument {
  head : list nat;
  elements : gmap nat HTMLStyleElement;
  next_node : nat;
}.

(** The exceptions the DOM calls of this file can raise. *)
Inductive Exception : Set :=
  | NotFoundError          (* insertBefore: the reference is not a child *)
  | IndexSizeError         (* insertRule: the index is past the rule list *)
  | TypeError              (* a property read on null or undefined *)
  | SyntaxError            (* insertRule: the text is not a rule *)
  | HierarchyRequestError  (* insertRule: the rule may not stand there *).

(** What the host decides about style text.  [insertRule_check rules css
    index] is the exception, if any, with which the host's
    [CSSStyleSheet.insertRule] refuses [css] at [index] of a sheet that
    holds [rules]; [parse_text texts] is the rule list the host reads from
    the text nodes of a [<style>] element. *)
Class Host : Type := {
  insertRule_check : list string → string → nat → option Exception;
  parse_text : list string → list string;
}.

Record StyleSheetOpts : Set := mkOpts { opt_nonce : option string }.

(** The module state: the host document and [styleBucketsInHead], which
    holds all style buckets that have been added to the head. *)
Record Runtime : Type := mkRuntime {
  document : Document;
  styleBucketsInHead : gmap Name nat;
}.

(** The outcome of a call: an exception, or its value. *)
Definition Ex (A : Type) : Type := (Exception + A)%type.

Fixpoint array_indexOf_from (bs : list Bucket) (b : Bucket) (i : Z) : Z :=
  match bs with
  | [] => -1
  | b' :: bs' => if decide (b' = b) then i else array_indexOf_from bs' b (i + 1)
  end.

(** [styleBucketOrdering.indexOf(bucketName)], [-1] when absent; an
    inherited member equals none of the entries. *)
Definition array_indexOf (bs : list Bucket) (bucketName : Name) : Z :=
  match bucketName with
  | Known b => array_indexOf_from bs b 0
  | Inherited _ => -1
  end.

(** The [for] loop of [lazyAddStyleBucketToHead] over the buckets that
    remain from [nextBucketIndex] on: the first one found in the cache. *)
Fixpoint findNextBucket (cache : gmap Name nat) (rest : list Bucket) : option nat :=
  match rest with
  | [] => None
  | b :: rest' =>
      match cache !! Known b with
      | Some nextBucket => Some nextBucket
      | None => findNextBucket cache rest'
      end
  end.

Fixpoint insert_before (tag ref : nat) (children : list nat) : option (list nat) :=
  match children with
  | [] => None
  | c :: children' =>
      if decide (c = ref) then Some (tag :: c :: children')
      else (c ::.) <$> insert_before tag ref children'
  end.

(** [document.head.insertBefore(tag, ref)]: a null reference appends; a
    reference that is not a child of the head raises. *)
Definition insertBefore (tag : nat) (ref : option nat) (doc : Document) : Ex Document :=
  match ref with
  | None => inr (mkDocument (head doc ++ [tag]) (elements doc) (next_node doc))
  | Some r =>
      match insert_before tag r (head doc) with
      | Some children => inr (mkDocument children (elements doc) (next_node doc))
      | None => inl NotFoundError
      end
  end.

(** [style.sheet]: null unless the element is connected to the document. *)
Definition sheet_of (style : nat) (doc : Document) : Ex HTMLStyleElement :=
  if decide (style ∈ head doc) then
    match elements doc !! style with
    | Some el => inr el
    | None => inl TypeError
    end
  else inl TypeError.

Definition set_element (style : nat) (el : HTMLStyleElement) (rt : Runtime) : Runtime :=
  mkRuntime (mkDocument (head (document rt))
                        (<[style := el]> (elements (document rt)))
                        (next_node (document rt)))
            (styleBucketsInHead rt).

(** A page whose head holds [n] nodes of its own and no style bucket. *)
Definition initial (n : nat) : Runtime :=
  mkRuntime (mkDocument (seq 0 n) ∅ n) ∅.

(** The element, if any, of a key of [styleBucketsInHead]. *)
Definition element_of (bucketName : Name) (rt : Runtime) : option HTMLStyleElement :=
  match styleBucketsInHead rt !! bucketName with
  | Some tag => elements (document rt) !! tag
  | None => None
  end.

(** Number of times [css] occurs in a list of rule texts. *)
Definition occurrences (css : string) (l : list string) : nat :=
  length (filter (λ x, x = css) l).

Section WithHost.
Context `{Host}.

(** [document.createElement('style')], the optional [nonce] attribute (an
    empty nonce is falsy and sets nothing) and the empty text node, from
    which the host reads the element's first rule list. *)
Definition createStyleTag (opts : StyleSheetOpts) (doc : Document) : nat * Document :=
  let tag := next_node doc in
  let attr := match opt_nonce opts with
              | Some n => if decide (n = "") then None else Some n
              | None => None
              end in
  (tag, mkDocument (head doc)
                   (<[tag := mkStyle attr [""] (parse_text [""])]> (elements doc))
                   (S tag)).

(** Lazily adds a [<style>] bucket to the [<head>].  The cache is written
    before the element is put in the head, and stays written if that
    raises. *)
Definition lazyAddStyleBucketToHead (bucketName : Name) (opts : StyleSheetOpts)
    (rt : Runtime) : Ex nat * Runtime :=
  match styleBucketsInHead rt !! bucketName with
  | Some tag => (inr tag, rt)
  | None =>
      let nextBucketIndex := array_indexOf styleBucketOrdering bucketName + 1 in
      let nextBucketFromCache :=
        findNextBucket (styleBucketsInHead rt)
                       (drop (Z.to_nat nextBucketIndex) styleBucketOrdering) in
      let '(tag, doc1) := createStyleTag opts (document rt) in
      let cache := <[bucketName := tag]> (styleBucketsInHead rt) in
      match insertBefore tag nextBucketFromCache doc1 with
      | inr doc2 => (inr tag, mkRuntime doc2 cache)
      | inl e => (inl e, mkRuntime doc1 cache)
      end
  end.

(** [sheet.insertRule(css, index)] on the rule list of a style sheet: the
    index is checked first, then the host judges the text. *)
Definition insertRule (rules : list string) (css : string) (index : nat) : Ex (list string) :=
  if decide (index ≤ length rules)%nat
  then match insertRule_check rules css index with
       | Some e => inl e
       | None => inr (take index rules ++ css :: drop index rules)
       end
  else inl IndexSizeError.

(** The function returned by [createStyleSheet(opts)]; [production] is
    [process.env.NODE_ENV === 'production'].  It returns nothing, or
    raises; either way the state it has reached stays.  Outside production
    the new text node makes the host read the element's rules anew. *)
Definition createStyleSheet (production : bool) (opts : StyleSheetOpts)
    (css : string) (rt : Runtime) : Ex unit * Runtime :=
  let bucketName := getStyleBucketName css in
  match lazyAddStyleBucketToHead bucketName opts rt with
  | (inl e, rt1) => (inl e, rt1)
  | (inr style, rt1) =>
      if production then
        match sheet_of style (document rt1) with
        | inl e => (inl e, rt1)
        | inr sheet =>
            match insertRule (cssRules sheet) css (length (cssRules sheet)) with
            | inl e => (inl e, rt1)
            | inr rules =>
                (inr tt, set_element style
                           (mkStyle (nonce sheet) (childNodes sheet) rules) rt1)
            end
        end
      else
        match elements (document rt1) !! style with
        | Some el =>
            (inr tt, set_element style
                       (mkStyle (nonce el) (childNodes el ++ [css])
                                (parse_text (childNodes el ++ [css]))) rt1)
        | None => (inl TypeError, rt1)
        end
  end.

(** A sequence of calls, in order, each on the state the one before has
    left, whether it returned or raised: their outcomes and the last
    state. *)
Fixpoint applySheets (production : bool) (opts : StyleSheetOpts)
    (sheets : list string) (rt : Runtime) : list (Ex unit) * Runtime :=
  match sheets with
  | [] => ([], rt)
  | css :: rest =>
      let '(outcome, rt1) := createStyleSheet production opts css rt in
      let '(outcomes, rt2) := applySheets production opts rest rt1 in
      (outcome :: outcomes, rt2)
  end.

(** The state after the calls [sheets] on a page whose head held [n]
    nodes. *)
Definition after (production : bool) (opts : StyleSheetOpts) (n : nat)
    (sheets : list string) : Runtime :=
  snd (applySheets production opts sheets (initial n)).

(** What one call does to the element of its bucket. *)
Definition append_rule (production : bool) (css : string) (el : HTMLStyleElement)
    : Ex unit * HTMLStyleElement :=
  if production then
    match insertRule_check (cssRules el) css (length (cssRules el)) with
    | Some e => (inl e, el)
    | None => (inr tt, mkStyle (nonce el) (childNodes el) (cssRules el ++ [css]))
    end
  else (inr tt, mkStyle (nonce el) (childNodes el ++ [css])
                        (parse_text (childNodes el ++ [css]))).

End WithHost.

(** *** Vocabulary of the ordering properties *)

(** The precedence of a name: its place in [styleBucketOrdering], and
    [-1] for an inherited member. *)
Definition rank (bucketName : Name) : Z := array_indexOf styleBucketOrdering bucketName.

(** [x] comes before [y] among the children. *)
Definition before (x y : nat) (children : list nat) : Prop :=
  ∃ l1 l2 l3, children = l1 ++ x :: l2 ++ y :: l3.

(** Any two keys of the cache have their elements in the head in the
    order of their precedence. *)
Definition ordered (rt : Runtime) : Prop :=
  ∀ k1 k2 t1 t2,
    styleBucketsInHead rt !! k1 = Some t1 →
    styleBucketsInHead rt !! k2 = Some t2 →
    rank k1 < rank k2 →
    before t1 t2 (head (document rt)).

(** [t] is the element of the nearest bucket above [k] that is cached. *)
Definition nearest_higher (rt : Runtime) (k : Name) (t : nat) : Prop :=
  ∃ b', rank k < rank (Known b') ∧ styleBucketsInHead rt !! Known b' = Some t ∧
        ∀ b'', rank k < rank (Known b'') < rank (Known b') →
               styleBucketsInHead rt !! Known b'' = None.

Definition no_higher (rt : Runtime) (k : Name) : Prop :=
  ∀ b', rank k < rank (Known b') → styleBucketsInHead rt !! Known b' = None.

(** How the head changes when the key [k] gets its element [tag]:
    directly before the element of the nearest cached bucket above, or at
    the end when there is none. *)
Definition placed (rt : Runtime) (k : Name) (tag : nat) (children : list nat) : Prop :=
  (∃ t l1 l2, nearest_higher rt k t ∧ head (document rt) = l1 ++ t :: l2 ∧
              children = l1 ++ tag :: t :: l2) ∨
  (no_higher rt k ∧ children = head (document rt) ++ [tag]).

(** What the module keeps true of its state between calls. *)
Record consistent (rt : Runtime) : Prop := mkConsistent {
  cons_nodup : NoDup (head (document rt));
  cons_fresh : ∀ x, x ∈ head (document rt) → (x < next_node (document rt))%nat;
  cons_live : ∀ k t, styleBucketsInHead rt !! k = Some t →
                t ∈ head (document rt) ∧ is_Some (elements (document rt) !! t);
  cons_inj : ∀ k1 k2 t, styleBucketsInHead rt !! k1 = Some t →
               styleBucketsInHead rt !! k2 = Some t → k1 = k2;
  cons_ordered : ordered rt;
}.

(** The long names of the ordered pseudo classes. *)
Definition longPseudos : list (string * Bucket) :=
  [ ("link", BLink); ("visited", BVisited); ("focus-within", BFocusWithin);
    ("focus", BFocus); ("focus-visible", BFocusVisible); ("hover", BHover);
    ("active", BActive) ].



(** *** A host to run the definitions on

    The theorems below hold for every host; this one only serves to
    evaluate them on concrete inputs.  It takes as a rule any text that
    has an opening brace and ends with a closing one. *)

Fixpoint ends_with_brace (s : string) : bool :=
  match s with
  | EmptyString => false
  | String c EmptyString => Ascii.eqb c "}"
  | String _ s' => ends_with_brace s'
  end.

Definition looks_like_rule (css : string) : bool :=
  negb (lacks "{" css) && ends_with_brace css.

Definition sample_host : Host := {|
  insertRule_check := λ _ css _, if looks_like_rule css then None else Some SyntaxError;
  parse_text := λ texts, filter (λ css, looks_like_rule css = true) texts;
|}.

End Sheet.

(** ** The build-time transform: [transform.ts] *)
Module Transform.

(** The nodes of a parsed style sheet, as the plugins see them. *)
#[warnings="-register-all"] Inductive Node : Set :=
  | Decl (prop value : string) (important : bool)
  | Rule (selector : string) (nodes : list Node)
  | AtRule (name params : string) (nodes : list Node)
  | Comment (text : string).

(** A root: the text it was parsed from ([root.source.input.css]) and its
    top-level nodes. *)
Record Root : Set := mkRoot {
  source_input_css : string;
  root_nodes : list Node;
}.

Record TransformOpts : Type := mkTransformOpts {
  optimizeCss : option bool;
  classNameCompressionMap : option (gmap string string);
  increaseSpecificity_opt : option bool;
  sortAtRules : option bool;
  sortShorthand : option bool;
  classHashPrefix : option string;
}.

(** What a [catch] clause can receive: an [Error] with its message, or
    any other thrown value. *)
Inductive Thrown : Set :=
  | ThrownError (message : string)
  | ThrownValue (value : string).

(** The two arrays of one [transformCss] call, filled by the callbacks. *)
Record Out : Set := mkOut {
  out_sheets : list string;
  out_classNames : list string;
}.

(** A plugin runs on the root, may push to the arrays, and may throw. *)
Definition Plugin : Type := Root → Out → Thrown + (Root * Out).

(** The hash of [@compiled/utils], taken as given. *)
Class Utils : Type := { hash : string → string }.

(** The parser and the plugins that [transform.ts] imports. *)
Class Postcss : Type := {
  parse : string → Thrown + list Node;
  discardDuplicates : Plugin;
  discardEmptyRules : Plugin;
  parentOrphanedPseudos : Plugin;
  nested : Plugin;
  normalizeCSS : TransformOpts → list Plugin;
  expandShorthands : Plugin;
  atomicifyRules : option (gmap string string) → option string → Plugin;
  increaseSpecificity : Plugin;
  sortAtomicStyleSheet : option bool → option bool → Plugin;
  autoprefixer : Plugin;
  whitespace : Plugin;
  extractStyleSheets : Plugin;
}.

(** The process the call runs in: [process.env.AUTOPREFIXER] and what has
    been written to the console. *)
Record Process : Set := mkProcess {
  env_AUTOPREFIXER : option string;
  console : list string;
}.

(** The error built by [createError(packageName, help)(message)]. *)
Record CompiledError : Set := mkError {
  err_package : string;
  err_help : string;
  err_message : string;
}.

Record Result : Set := mkResult {
  sheets : list string;
  classNames : list string;
}.

(** Modelled from the spec: [unique] of [@compiled/utils] is not among the
    sources; a name generated more than once appears exactly once in the
    returned sequence.  Names are kept at their first occurrence. *)
Fixpoint unique_from (seen : list string) (arr : list string) : list string :=
  match arr with
  | [] => seen
  | x :: arr' =>
      if decide (x ∈ seen) then unique_from seen arr'
      else unique_from (seen ++ [x]) arr'
  end.

Definition unique (arr : list string) : list string := unique_from [] arr.

Definition truthy (b : option bool) : bool := default false b.

Definition nl : string := String (ascii_of_nat 10) "".

(** The message of the error that [transformCss] throws. *)
Definition unhandled_message (css message : string) : string :=
  "An unhandled exception was raised when parsing your CSS, this is probably a bug!" +:+ nl +:+
  "  Raise an issue here: https://github.com/atlassian-labs/compiled/issues/new?assignees=&labels=&template=bug_report.md&title=CSS%20Parsing%20Exception:%20" +:+ nl +:+
  nl +:+
  "  Input CSS: {" +:+ nl +:+
  "    " +:+ css +:+ nl +:+
  "  }" +:+ nl +:+
  nl +:+
  "  Exception: " +:+ message.

Definition thrown_message (e : Thrown) : string :=
  match e with
  | ThrownError message => message
  | ThrownValue value => value
  end.

(** [s] occurs in [t]. *)
Definition carries (t s : string) : Prop := ∃ pre post, t = pre +:+ s +:+ post.

Section Pipeline.
Context {U : Utils} {P : Postcss}.

(** One step of [root.each] in [groupGlobalRules]: [nodes] and
    [orphanDecls] grow at their ends. *)
Definition groupGlobalRules_each (uniqueName : string)
    (acc : list Node * list Node) (node : Node) : list Node * list Node :=
  let '(nodes, orphanDecls) := acc in
  match node with
  | Decl _ _ _ => (nodes, orphanDecls ++ [node])
  | Rule selector children =>
      (nodes ++ [Rule ("." +:+ uniqueName +:+ " " +:+ selector) children], orphanDecls)
  | Comment _ => (nodes, orphanDecls)
  | AtRule _ _ _ => (nodes, orphanDecls)
  end.

(** The [OnceExit] hook of [groupGlobalRules]: the class name handed to
    the callback and the new top-level nodes. *)
Definition groupGlobalRules_nodes (css : string) (top : list Node) : string * list Node :=
  let uniqueName := hash css in
  let '(nodes, orphanDecls) := foldl (groupGlobalRules_each uniqueName) ([], []) top in
  let nodes := match orphanDecls with
               | [] => nodes
               | _ :: _ => Rule ("." +:+ uniqueName) orphanDecls :: nodes
               end in
  ("." +:+ uniqueName, nodes).

Definition groupGlobalRules (callback : string → Out → Out) : Plugin :=
  λ root out,
    let '(className, nodes) :=
      groupGlobalRules_nodes (source_input_css root) (root_nodes root) in
    inr (mkRoot (source_input_css root) nodes, callback className out).

Definition push_className (className : string) (out : Out) : Out :=
  mkOut (out_sheets out) (out_classNames out ++ [className]).

(** The plugin list of [transformCss], in the order it is written. *)
Definition plugins (w : Process) (opts : TransformOpts) (isGlobal : bool) : list Plugin :=
  [discardDuplicates; discardEmptyRules; parentOrphanedPseudos; nested]
  ++ normalizeCSS opts
  ++ [expandShorthands]
  ++ (if isGlobal then [groupGlobalRules push_className] else [])
  ++ (if negb isGlobal
      then [atomicifyRules (classNameCompressionMap opts) (classHashPrefix opts)]
      else [])
  ++ (if truthy (increaseSpecificity_opt opts) then [increaseSpecificity] else [])
  ++ [sortAtomicStyleSheet (sortAtRules opts) (sortShorthand opts)]
  ++ (if decide (env_AUTOPREFIXER w = Some "off") then [] else [autoprefixer])
  ++ [whitespace; extractStyleSheets].

Fixpoint run_plugins (ps : list Plugin) (root : Root) (out : Out) : Thrown + (Root * Out) :=
  match ps with
  | [] => inr (root, out)
  | p :: ps' =>
      match p root out with
      | inl e => inl e
      | inr (root', out') => run_plugins ps' root' out'
      end
  end.

(** [postcss(plugins).process(css)] followed by the read of [result.css]. *)
Definition process (ps : list Plugin) (css : string) (out : Out) : Thrown + (Root * Out) :=
  match parse css with
  | inl e => inl e
  | inr top => run_plugins ps (mkRoot css top) out
  end.

(** Will transform CSS into multiple CSS sheets. *)
Definition transformCss (w : Process) (css : string) (opts : TransformOpts)
    (isGlobal : bool) : (CompiledError + Result) * Process :=
  let w1 := mkProcess (env_AUTOPREFIXER w) (console w ++ ["css " +:+ css]) in
  match process (plugins w1 opts isGlobal) css (mkOut [] []) with
  | inr (_, out) => (inr (mkResult (out_sheets out) (unique (out_classNames out))), w1)
  | inl e =>
      (inl (mkError "css" "Unhandled exception" (unhandled_message css (thrown_message e))), w1)
  end.

(** *** Vocabulary of the properties of [groupGlobalRules] *)

Definition is_decl (n : Node) : bool :=
  match n with Decl _ _ _ => true | _ => false end.


(** A top-level rule with its selector put under [.{uniqueName} ]; other
    nodes have no such image. *)
Definition scoped (uniqueName : string) (n : Node) : option Node :=
  match n with
  | Rule selector children =>
      Some (Rule ("." +:+ uniqueName +:+ " " +:+ selector) children)
  | _ => None
  end.



(** The synthetic rule for the bare declarations, when there are any. *)
Definition wrapper (css : string) (top : list Node) : list Node :=
  match filter (λ n, is_decl n = true) top with
  | [] => []
  | d :: ds => [Rule ("." +:+ hash css) (d :: ds)]
  end.


Definition is_rule (n : Node) : bool :=
  match n with Rule _ _ => true | _ => false end.

Definition is_atrule (n : Node) : bool :=
  match n with AtRule _ _ _ => true | _ => false end.


Definition plugins_after (w : Process) (opts : TransformOpts) : list Plugin :=
  (if truthy (increaseSpecificity_opt opts) then [increaseSpecificity] else [])
  ++ [sortAtomicStyleSheet (sortAtRules opts) (sortShorthand opts)]
  ++ (if decide (env_AUTOPREFIXER w = Some "off") then [] else [autoprefixer])
  ++ [whitespace; extractStyleSheets].

End Pipeline.

(** *** A small instance to run the definitions on

    The theorems below hold for every hash, parser and plugin; this
    instance only serves to evaluate them on concrete inputs. *)

Definition sample_hash (s : string) : string :=
  pretty (foldr (λ c acc, (N_of_ascii c + 31 * acc) `mod` 65521)%N 7%N
                (String.list_ascii_of_string s)).

Definition sample_utils : Utils := {| hash := sample_hash |}.

Fixpoint balanced (depth : nat) (s : string) : bool :=
  match s with
  | EmptyString => bool_decide (depth = 0%nat)
  | String c s' =>
      if Ascii.eqb c "{" then balanced (S depth) s'
      else if Ascii.eqb c "}" then
        match depth with
        | O => false
        | S depth' => balanced depth' s'
        end
      else balanced depth s'
  end.

(** Cuts [s] at every [c]. *)
Fixpoint split_on (c : ascii) (s : string) : list string :=
  match s with
  | EmptyString => [EmptyString]
  | String d s' =>
      match split_on c s' with
      | [] => [EmptyString]
      | piece :: pieces =>
          if Ascii.eqb d c then EmptyString :: piece :: pieces
          else String d piece :: pieces
      end
  end.

(** A parser of flat declaration lists [prop:value;...], which rejects
    unbalanced braces. *)
Definition sample_parse (css : string) : Thrown + list Node :=
  if balanced 0 css then
    inr (omap (λ piece, match split_on ":" piece with
                        | [prop; value] => Some (Decl prop value false)
                        | _ => None
                        end) (split_on ";" css))
  else inl (ThrownError "<css input>:1:1: Unclosed block").

Definition sample_pass : Plugin := λ root out, inr (root, out).

(** One single-declaration rule and one class name per declaration. *)
Definition sample_atomicify (prefix : option string) : Plugin :=
  λ root out,
    let named :=
      omap (λ n, match n with
                 | Decl prop value _ =>
                     Some ("_" +:+ default "" prefix +:+ sample_hash (prop +:+ value), n)
                 | _ => None
                 end) (root_nodes root) in
    inr (mkRoot (source_input_css root)
                (map (λ '(name, d), Rule ("." +:+ name) [d]) named),
         mkOut (out_sheets out) (out_classNames out ++ map fst named)).

(** Puts [-webkit-user-select] before every [user-select]. *)
Definition sample_prefix (decls : list Node) : list Node :=
  flat_map (λ n, match n with
                 | Decl "user-select" value important =>
                     [Decl "-webkit-user-select" value important; n]
                 | _ => [n]
                 end) decls.

Definition sample_autoprefixer : Plugin :=
  λ root out,
    inr (mkRoot (source_input_css root)
                (map (λ n, match n with
                           | Rule selector children => Rule selector (sample_prefix children)
                           | _ => n
                           end) (root_nodes root)),
         out).

Fixpoint sample_body (decls : list Node) : string :=
  match decls with
  | [] => ""
  | Decl prop value _ :: [] => prop +:+ ":" +:+ value
  | Decl prop value _ :: decls' => prop +:+ ":" +:+ value +:+ ";" +:+ sample_body decls'
  | _ :: decls' => sample_body decls'
  end.

Definition sample_rule (n : Node) : option string :=
  match n with
  | Rule selector children => Some (selector +:+ "{" +:+ sample_body children +:+ "}")
  | _ => None
  end.

(** The sheet of a top-level rule or at-rule. *)
Definition sample_sheet (n : Node) : option string :=
  match n with
  | Rule _ _ => sample_rule n
  | AtRule name params children =>
      Some ("@" +:+ name +:+ " " +:+ params +:+ "{"
            +:+ foldr String.append "" (omap sample_rule children) +:+ "}")
  | _ => None
  end.

Definition sample_extract : Plugin :=
  λ root out,
    inr (root,
         mkOut (out_sheets out ++ omap sample_sheet (root_nodes root))
               (out_classNames out)).

(** The sample plugins behind a given parser. *)
Definition sample_postcss_of (parser : string → Thrown + list Node) : Postcss := {|
  parse := parser;
  discardDuplicates := sample_pass;
  discardEmptyRules := sample_pass;
  parentOrphanedPseudos := sample_pass;
  nested := sample_pass;
  normalizeCSS := λ _, [];
  expandShorthands := sample_pass;
  atomicifyRules := λ _ prefix, sample_atomicify prefix;
  increaseSpecificity := sample_pass;
  sortAtomicStyleSheet := λ _ _, sample_pass;
  autoprefixer := sample_autoprefixer;
  whitespace := sample_pass;
  extractStyleSheets := sample_extract;
|}.

Definition sample_postcss : Postcss := sample_postcss_of sample_parse.

Definition no_opts : TransformOpts :=
  mkTransformOpts None None None None None None.

End Transform.

(** ** More of the runtime: grouping, and the layout of the head *)
Module SheetLayout.
Import JsString Sheet.

(** Group sheets by bucket.  An array is truthy, so [accum[b] || []]
    starts a new array exactly when the key is absent. *)
Definition groupSheetsByBucket (sheets : list string) : gmap Name (list string) :=
  foldl (λ accum sheet,
           let bucketName := getStyleBucketName sheet in
           <[bucketName := default [] (accum !! bucketName) ++ [sheet]]> accum)
        ∅ sheets.

(** The sheets of a sequence that go under the key [k], in order. *)
Definition sheets_of (k : Name) (sheets : list string) : list string :=
  filter (λ sheet, getStyleBucketName sheet = k) sheets.

Definition is_known (k : Name) : bool :=
  match k with Known _ => true | Inherited _ => false end.

(** The key is one of the buckets [bs]. *)
Definition known_in (bs : list Bucket) (k : Name) : bool :=
  match k with
  | Known b => bool_decide (b ∈ bs)
  | Inherited _ => false
  end.

(** The [nonce] attribute that [lazyAddStyleBucketToHead] sets. *)
Definition nonce_attr (opts : StyleSheetOpts) : option string :=
  match opt_nonce opts with
  | Some n => if decide (n = "") then None else Some n
  | None => None
  end.

Section WithHost.
Context `{Host}.

(** The rule list after [insertRule] has been tried at its end with each
    of the texts [l] in turn: the texts the host refused are not in it. *)
Definition insert_all (rules : list string) (l : list string) : list string :=
  foldl (λ rules css,
           match insertRule_check rules css (length rules) with
           | Some _ => rules
           | None => rules ++ [css]
           end) rules l.

(** The element of a key that has received the texts [l]. *)
Definition bucket_element (production : bool) (opts : StyleSheetOpts)
    (l : list string) : HTMLStyleElement :=
  if production
  then mkStyle (nonce_attr opts) [""] (insert_all (parse_text [""]) l)
  else mkStyle (nonce_attr opts) ("" :: l) (parse_text ("" :: l)).

End WithHost.

(** The node each key gets when the sheets arrive in the order [done] on
    a page that had [n] nodes: keys are numbered as they first appear. *)
Definition allocate (n : nat) (done : list string) : gmap Name nat :=
  foldl (λ cache sheet,
           match cache !! getStyleBucketName sheet with
           | Some _ => cache
           | None => <[getStyleBucketName sheet := (n + size cache)%nat]> cache
           end)
        ∅ done.

(** The inherited members met in [done], in the order of their first
    appearance. *)
Definition inherited_of (done : list string) : list Name :=
  foldl (λ met sheet,
           match getStyleBucketName sheet with
           | Known _ => met
           | Inherited m => if decide (Inherited m ∈ met) then met
                            else met ++ [Inherited m]
           end)
        [] done.

(** The state after the sheets [done] have been applied to a page that
    had [n] nodes in its head. *)
Record layout `{Host} (production : bool) (opts : StyleSheetOpts) (n : nat)
    (done : list string) (rt : Runtime) : Prop := mkLayout {
  lay_consistent : consistent rt;
  lay_head : head (document rt)
             = seq 0 n
               ++ omap (λ k, styleBucketsInHead rt !! k) (inherited_of done)
               ++ omap (λ b, styleBucketsInHead rt !! Known b) styleBucketOrdering;
  lay_cache : styleBucketsInHead rt = allocate n done;
  lay_next : next_node (document rt) = (n + size (styleBucketsInHead rt))%nat;
  lay_length : length (head (document rt)) = (n + size (styleBucketsInHead rt))%nat;
  lay_absent : ∀ k, styleBucketsInHead rt !! k = None ↔ sheets_of k done = [];
  lay_element : ∀ k tag, styleBucketsInHead rt !! k = Some tag →
                  elements (document rt) !! tag
                  = Some (bucket_element production opts (sheets_of k done));
}.

End SheetLayout.

(** ** The webpack loaders *)
Module Loaders.

(** The state of the compiled loader's module: [hasErrored], and the
    errors handed to [this.emitError] so far. *)
Record LoaderState : Set := mkLoaderState {
  hasErrored : bool;
  emitted : list string;
}.

Definition forgot_plugin_message : string :=
  "You forgot to add the 'CompiledExtractPlugin' plugin (i.e `{ plugins: [new CompiledExtractPlugin()] }`), please read https://compiledcssinjs.com/docs/css-extraction-webpack".

(** [pitch] of the compiled loader, for a loader context whose options
    have [extract] and which has the extract plugin or not. *)
Definition compiled_pitch (extract pluginPresent : bool) (st : LoaderState) : LoaderState :=
  if negb (hasErrored st) && extract && negb pluginPresent
  then mkLoaderState true (emitted st ++ [forgot_plugin_message])
  else st.

(** A call in which [extract] is on and the plugin is missing. *)
Definition forgot_plugin (call : bool * bool) : bool := fst call && negb (snd call).

(** A sequence of [pitch] calls, one per file. *)
Definition compiled_pitches (calls : list (bool * bool)) (st : LoaderState) : LoaderState :=
  foldl (λ st '(extract, pluginPresent), compiled_pitch extract pluginPresent st) st calls.

Definition dquote : string := String (ascii_of_nat 34) "".

(** The [require] line that the compiled loader writes for one found
    rule, up to the code that follows it. *)
Definition require_line (toURIComponent : string → string) (rule : string) : string :=
  Transform.nl +:+ "  require(" +:+ dquote +:+
  "@compiled/webpack-loader/css-loader!@compiled/webpack-loader/css-loader/extract.css?style="
  +:+ toURIComponent rule +:+ dquote +:+ ");" +:+ Transform.nl +:+ "  ".

(** The output of the compiled loader: with [extract] on, each found rule
    puts its [require] line in front of what has been built so far. *)
Definition loader_output (toURIComponent : string → string) (extract : bool)
    (foundCSSRules : list string) (code : string) : string :=
  if extract && negb (bool_decide (length foundCSSRules = 0%nat))
  then foldl (λ output rule, require_line toURIComponent rule +:+ output)
             code foundCSSRules
  else code.

(** The lines one after the other. *)
Fixpoint concat_lines (lines : list string) : string :=
  match lines with
  | [] => ""
  | line :: lines' => line +:+ concat_lines lines'
  end.

End Loaders.

(** * Properties of the string primitives *)
Module JsStringFacts.
Import JsString.

Lemma append_nil (b : string) : "" +:+ b = b.
Proof. reflexivity. Qed.

Lemma append_cons (x : ascii) (a b : string) :
  String x a +:+ b = String x (a +:+ b).
Proof. reflexivity. Qed.

Ltac str_simpl := rewrite ?append_nil, ?append_cons; simpl.

Lemma append_assoc (a b c : string) : (a +:+ b) +:+ c = a +:+ (b +:+ c).
Proof. induction a as [|x a IH]; str_simpl; [reflexivity | by rewrite IH]. Qed.

Lemma length_append (a b : string) :
  String.length (a +:+ b) = (String.length a + String.length b)%nat.
Proof. induction a as [|x a IH]; str_simpl; [reflexivity | by rewrite IH]. Qed.

Lemma get_append_at (a : string) (c : ascii) (r : string) :
  String.get (String.length a) (a +:+ String c r) = Some c.
Proof. induction a as [|x a IH]; str_simpl; [reflexivity | exact IH]. Qed.

Lemma str_drop_append (a b : string) : str_drop (String.length a) (a +:+ b) = b.
Proof. induction a as [|x a IH]; str_simpl; [reflexivity | exact IH]. Qed.

Lemma str_take_append (a b : string) : str_take (String.length a) (a +:+ b) = a.
Proof.
  induction a as [|x a IH]; str_simpl; [by destruct b | by rewrite IH].
Qed.

Lemma lacks_append (c : ascii) (a b : string) :
  lacks c (a +:+ b) = lacks c a && lacks c b.
Proof.
  induction a as [|x a IH]; str_simpl; [reflexivity |].
  rewrite IH. by rewrite andb_assoc.
Qed.

Lemma indexOf_from_append (c : ascii) (a r : string) (i : Z) :
  lacks c a = true →
  indexOf_from c (a +:+ String c r) i = i + Z.of_nat (String.length a).
Proof.
  revert i. induction a as [|x a IH]; intros i Ha; str_simpl; simpl in Ha.
  - rewrite Ascii.eqb_refl. lia.
  - apply andb_true_iff in Ha as [Hx Ha].
    apply negb_true_iff in Hx. rewrite Hx, IH by done. lia.
Qed.

(** Cutting [name] out of [p ++ name ++ "{" ++ rest] by the position of the
    first brace, as [getStyleBucketName] does with [p] of length 14. *)
Lemma slice_to_first (c : ascii) (p name rest : string) :
  lacks c (p +:+ name) = true →
  slice (p +:+ name +:+ String c rest) (Z.of_nat (String.length p))
        (indexOf (p +:+ name +:+ String c rest) c) = name.
Proof.
  intros Hl. unfold indexOf.
  rewrite <- (append_assoc p name (String c rest)).
  rewrite indexOf_from_append by done.
  rewrite append_assoc. unfold slice.
  rewrite !length_append. simpl String.length.
  set (lp := String.length p). set (ln := String.length name).
  set (lr := String.length rest).
  destruct (Z.ltb_spec (Z.of_nat lp) 0) as [?|_]; [lia|].
  destruct (Z.ltb_spec (0 + Z.of_nat (lp + ln)) 0) as [?|_]; [lia|].
  replace (Z.to_nat (Z.of_nat lp `min` Z.of_nat (lp + (ln + S lr)))) with lp by lia.
  replace (Z.to_nat _) with ln by lia.
  subst lp ln. rewrite str_drop_append. apply str_take_append.
Qed.

End JsStringFacts.


(** * Properties of the runtime *)
Module SheetFacts.
Import JsString JsStringFacts Sheet.

(** ** Classification *)

Lemma pseudosMap_lookup (name : string) (b : Bucket) :
  (name, b) ∈ pseudosTable ↔ pseudosMap !! name = Some b.
Proof.
  unfold pseudosMap. apply elem_of_list_to_map.
  apply (bool_decide_unpack _). vm_compute. exact I.
Qed.

Lemma pseudosMap_absent (name : string) :
  (∀ b, (name, b) ∉ pseudosTable) → pseudosMap !! name = None.
Proof.
  intros Hno. destruct (pseudosMap !! name) as [b|] eqn:E; [|done].
  apply pseudosMap_lookup in E. by destruct (Hno b).
Qed.

(** No own key of the table is a property name of the prototype. *)
Lemma objectPrototype_not_own (name : string) :
  name ∈ objectPrototype → pseudosMap !! name = None.
Proof.
  unfold objectPrototype. rewrite !elem_of_cons, elem_of_nil.
  intros Hin. repeat (destruct Hin as [->|Hin]; [reflexivity|]). done.
Qed.

Lemma pseudosMap_get_known (name : string) (b : Bucket) :
  (name, b) ∈ pseudosTable → pseudosMap_get name = Some (Known b).
Proof.
  intros Hb. apply pseudosMap_lookup in Hb. unfold pseudosMap_get. by rewrite Hb.
Qed.

Lemma pseudosMap_get_inherited (name : string) :
  name ∈ objectPrototype → pseudosMap_get name = Some (Inherited name).
Proof.
  intros Hin. unfold pseudosMap_get. rewrite (objectPrototype_not_own _ Hin).
  by destruct (decide _).
Qed.

Lemma pseudosMap_get_none (name : string) :
  (∀ b, (name, b) ∉ pseudosTable) → name ∉ objectPrototype →
  pseudosMap_get name = None.
Proof.
  intros Hno Hnot. unfold pseudosMap_get. rewrite (pseudosMap_absent _ Hno).
  by destruct (decide _).
Qed.

(** Whatever the table finds is a bucket of the table, or the member
    itself. *)
Lemma pseudosMap_get_cases (name : string) (k : Name) :
  pseudosMap_get name = Some k →
  (∃ b, k = Known b ∧ (name, b) ∈ pseudosTable) ∨
  (k = Inherited name ∧ name ∈ objectPrototype).
Proof.
  unfold pseudosMap_get. destruct (pseudosMap !! name) as [b|] eqn:E.
  - intros [= <-]. left. exists b. split; [done|]. by apply pseudosMap_lookup.
  - destruct (decide _) as [Hin|_]; [|done]. intros [= <-]. by right.
Qed.

(** A sheet whose eleventh character is the colon and whose brace comes
    after [name]: the name looked up is [name]. *)
Lemma getStyleBucketName_pseudo (cls pre name rest : string) :
  charCodeAt (cls +:+ ":" +:+ pre +:+ name +:+ "{" +:+ rest) 0 ≠ Some 64%nat →
  String.length cls = 10%nat → String.length pre = 3%nat →
  lacks "{" (cls +:+ pre +:+ name) = true →
  getStyleBucketName (cls +:+ ":" +:+ pre +:+ name +:+ "{" +:+ rest)
  = default (Known BCatchAll) (pseudosMap_get name).
Proof.
  intros H0 Hc Hp Hl. unfold getStyleBucketName.
  destruct (decide _) as [?|_]; [done|].
  assert (H10 : charCodeAt (cls +:+ ":" +:+ pre +:+ name +:+ "{" +:+ rest) 10
                = Some 58%nat).
  { pose proof (get_append_at cls ":" (pre +:+ name +:+ "{" +:+ rest)) as Hg.
    rewrite Hc in Hg. unfold charCodeAt.
    change (":" +:+ pre +:+ name +:+ "{" +:+ rest)
      with (String ":" (pre +:+ name +:+ "{" +:+ rest)).
    rewrite Hg. reflexivity. }
  destruct (decide _) as [_|?]; [|done].
  cbv zeta.
  replace (cls +:+ ":" +:+ pre +:+ name +:+ "{" +:+ rest)
    with ((cls +:+ ":" +:+ pre) +:+ name +:+ String "{" rest).
  2:{ rewrite !append_assoc. reflexivity. }
  replace 14 with (Z.of_nat (String.length (cls +:+ ":" +:+ pre))).
  2:{ rewrite !length_append, Hc, Hp. reflexivity. }
  rewrite slice_to_first; [done|].
  rewrite !lacks_append in *. simpl.
  apply andb_true_iff in Hl as [Hl1 Hl2]. apply andb_true_iff in Hl2 as [Hl2 Hl3].
  by rewrite Hl1, Hl2, Hl3.
Qed.

(** X17. A class token of ten characters followed by one of the long
    pseudo names lands in that pseudo's bucket. *)
Lemma getStyleBucketName_long (cls long rest : string) (b : Bucket) :
  (long, b) ∈ longPseudos →
  String.length cls = 10%nat →
  charCodeAt cls 0 ≠ Some 64%nat →
  lacks "{" cls = true →
  getStyleBucketName (cls +:+ ":" +:+ long +:+ "{" +:+ rest) = Known b.
Proof.
  intros Hin Hc H0 Hl.
  assert (Hsplit : ∃ pre name, long = pre +:+ name ∧ String.length pre = 3%nat
                     ∧ lacks "{" (pre +:+ name) = true
                     ∧ pseudosMap !! name = Some b).
  { unfold longPseudos in Hin.
    repeat (apply elem_of_cons in Hin as [Hin|Hin];
            [injection Hin as -> ->|]); [..|by apply elem_of_nil in Hin].
    - by exists "lin", "k".
    - by exists "vis", "ited".
    - by exists "foc", "us-within".
    - by exists "foc", "us".
    - by exists "foc", "us-visible".
    - by exists "hov", "er".
    - by exists "act", "ive". }
  destruct Hsplit as (pre & name & -> & Hp & Hl' & Hm).
  rewrite (append_assoc pre name).
  rewrite getStyleBucketName_pseudo; [| |done|done|].
  - unfold pseudosMap_get. by rewrite Hm.
  - destruct cls as [|c cls]; [done|]. exact H0.
  - rewrite lacks_append, Hl. exact Hl'.
Qed.

(** X19. The bucket of a sheet: the at-rule bucket when its first
    character is [@]; otherwise, when the character after the
    ten-character class token is the colon, the bucket the table gives for
    the pseudo name (read past its first three characters, up to the
    brace), and the catch-all bucket when the name is neither a key of the
    table nor a property name of [Object.prototype]; and the catch-all
    bucket when there is no colon at that place. *)
Theorem getStyleBucketName_classifies (sheet : string) :
  (charCodeAt sheet 0 = Some 64%nat → getStyleBucketName sheet = Known BAtRule) ∧
  (charCodeAt sheet 0 ≠ Some 64%nat →
   ∀ cls pre name rest,
     sheet = cls +:+ ":" +:+ pre +:+ name +:+ "{" +:+ rest →
     String.length cls = 10%nat → String.length pre = 3%nat →
     lacks "{" (cls +:+ pre +:+ name) = true →
     (∀ b, (name, b) ∈ pseudosTable → getStyleBucketName sheet = Known b) ∧
     ((∀ b, (name, b) ∉ pseudosTable) → name ∉ objectPrototype →
      getStyleBucketName sheet = Known BCatchAll)) ∧
  (charCodeAt sheet 0 ≠ Some 64%nat → charCodeAt sheet 10 ≠ Some 58%nat →
   getStyleBucketName sheet = Known BCatchAll) ∧
  (charCodeAt sheet 0 ≠ Some 64%nat → charCodeAt sheet 10 = Some 58%nat →
   getStyleBucketName sheet
   = default (Known BCatchAll)
       (pseudosMap_get (slice sheet 14 (indexOf sheet "{"%char)))
   ∧ getStyleBucketName sheet ≠ Known BAtRule).
Proof.
  split; [|split; [|split]].
  - intros H0. unfold getStyleBucketName. by destruct (decide _).
  - intros H0 cls pre name rest -> Hc Hp Hl.
    rewrite getStyleBucketName_pseudo by done. split.
    + intros b Hb. by rewrite (pseudosMap_get_known _ _ Hb).
    + intros Hno Hnot. by rewrite pseudosMap_get_none.
  - intros H0 H10. unfold getStyleBucketName.
    destruct (decide _); [done|]. by destruct (decide _).
  - intros H0 H10. unfold getStyleBucketName.
    destruct (decide _); [done|]. destruct (decide _); [|done].
    split; [done|]. cbv zeta.
    destruct (pseudosMap_get _) as [k|] eqn:E; [|done].
    apply pseudosMap_get_cases in E as [(b & -> & Hb)|[-> _]]; [|done].
    simpl. intros [= ->]. revert Hb.
    unfold pseudosTable. rewrite !elem_of_cons, elem_of_nil.
    intuition congruence.
Qed.

Lemma getStyleBucketName_classifies_witness :
  getStyleBucketName "@media (min-width:400px){._x{color:red}}" = Known BAtRule
  ∧ getStyleBucketName "._a1234567:hover{color:red}" = Known BHover
  ∧ getStyleBucketName "._a1234567:first-child{color:red}" = Known BCatchAll
  ∧ getStyleBucketName "._bbb222{color:blue}" = Known BCatchAll.
Proof.
  split; [|split; [|split]].
  - apply (proj1 (getStyleBucketName_classifies
                    "@media (min-width:400px){._x{color:red}}")).
    reflexivity.
  - refine (proj1 (proj1 (proj2 (getStyleBucketName_classifies
              "._a1234567:hover{color:red}")) _
              "._a1234567" "hov" "er" "color:red}" _ _ _ _) BHover _).
    + vm_compute. discriminate.
    + reflexivity.
    + reflexivity.
    + reflexivity.
    + reflexivity.
    + apply pseudosMap_lookup. reflexivity.
  - refine (proj2 (proj1 (proj2 (getStyleBucketName_classifies
              "._a1234567:first-child{color:red}")) _
              "._a1234567" "fir" "st-child" "color:red}" _ _ _ _) _ _).
    + vm_compute. discriminate.
    + reflexivity.
    + reflexivity.
    + reflexivity.
    + reflexivity.
    + intros b Hb. apply pseudosMap_lookup in Hb. discriminate Hb.
    + apply (bool_decide_unpack _). vm_compute. exact I.
  - apply (proj1 (proj2 (proj2
             (getStyleBucketName_classifies "._bbb222{color:blue}")))).
    + vm_compute. discriminate.
    + vm_compute. discriminate.
Defined.

(** A pseudo name that is a property name of [Object.prototype] is found
    in [pseudosMap] though the table has no such key, and the member is
    returned in place of a bucket. *)
Lemma getStyleBucketName_inherited (cls pre member rest : string) :
  member ∈ objectPrototype →
  String.length cls = 10%nat → String.length pre = 3%nat →
  charCodeAt cls 0 ≠ Some 64%nat →
  lacks "{" (cls +:+ pre +:+ member) = true →
  getStyleBucketName (cls +:+ ":" +:+ pre +:+ member +:+ "{" +:+ rest)
  = Inherited member.
Proof.
  intros Hin Hc Hp H0 Hl.
  rewrite getStyleBucketName_pseudo; [|by destruct cls|done|done|done].
  by rewrite (pseudosMap_get_inherited _ Hin).
Qed.

(** C5 (on the code). The suffix [constructor] is not a key of the table,
    and the sheet does not go to the catch-all bucket: the classification
    returns the [constructor] member that [pseudosMap] inherits. *)
Theorem getStyleBucketName_inherited_member :
  (∀ b, ("constructor", b) ∉ pseudosTable) ∧
  getStyleBucketName "._a1234567:xxxconstructor{color:red}" = Inherited "constructor" ∧
  getStyleBucketName "._a1234567:xxxconstructor{color:red}" ≠ Known BCatchAll.
Proof.
  split; [|split].
  - intros b Hb. apply pseudosMap_lookup in Hb. discriminate Hb.
  - reflexivity.
  - discriminate.
Qed.


(** Without a brace, [indexOf] gives [-1] and the slice stops one short of
    the end. *)
Example getStyleBucketName_no_brace :
  getStyleBucketName "._a1234567:hovers" = Known BHover.
Proof. reflexivity. Qed.

(** ** Lists of children *)

Ltac list_norm := repeat (rewrite <- app_assoc; simpl); simpl.

Ltac list_mem :=
  repeat match goal with H : _ ∈ _ |- _ => revert H end;
  rewrite ?elem_of_app, ?elem_of_cons, ?elem_of_nil;
  intuition congruence.

Lemma before_app_r (x y : nat) (l k : list nat) :
  before x y l → before x y (l ++ k).
Proof.
  intros (l1 & l2 & l3 & ->). exists l1, l2, (l3 ++ k). by list_norm.
Qed.

Lemma before_snoc (x y : nat) (l : list nat) : x ∈ l → before x y (l ++ [y]).
Proof.
  intros Hx. apply list_elem_of_split in Hx as (l1 & l2 & ->).
  exists l1, l2, []. by list_norm.
Qed.

(** A duplicate-free list is cut at an element in one way only. *)
Lemma NoDup_cut_unique (t : nat) (p q p' q' : list nat) :
  NoDup (p ++ t :: q) → p ++ t :: q = p' ++ t :: q' → p = p' ∧ q = q'.
Proof.
  revert p'. induction p as [|a p IH]; intros p' Hnd Heq.
  - destruct p' as [|a' p']; simpl in *.
    + by injection Heq as ->.
    + injection Heq as <- ->. apply NoDup_cons in Hnd as [Hnot _].
      destruct Hnot. list_mem.
  - destruct p' as [|a' p']; simpl in *.
    + injection Heq as -> <-. apply NoDup_cons in Hnd as [Hnot _].
      destruct Hnot. list_mem.
    + injection Heq as <- Heq. apply NoDup_cons in Hnd as [_ Hnd].
      destruct (IH p' Hnd Heq) as [-> ->]. done.
Qed.

(** In a duplicate-free list cut at [t], what comes before [t] lies in
    the first part and what comes after it in the second. *)
Lemma before_split_l (a t : nat) (p q : list nat) :
  NoDup (p ++ t :: q) → before a t (p ++ t :: q) → a ∈ p.
Proof.
  intros Hnd (l1 & l2 & l3 & Heq).
  assert (Heq' : p ++ t :: q = (l1 ++ a :: l2) ++ t :: l3)
    by (rewrite Heq; by list_norm).
  apply NoDup_cut_unique in Heq' as [-> _]; [|done]. list_mem.
Qed.

Lemma before_split_r (t b : nat) (p q : list nat) :
  NoDup (p ++ t :: q) → before t b (p ++ t :: q) → b ∈ q.
Proof.
  intros Hnd (l1 & l2 & l3 & Heq).
  apply NoDup_cut_unique in Heq as [_ ->]; [|done]. list_mem.
Qed.

Lemma insert_before_Some (tag ref : nat) (l : list nat) :
  ref ∈ l →
  ∃ l1 l2, l = l1 ++ ref :: l2 ∧ insert_before tag ref l = Some (l1 ++ tag :: ref :: l2).
Proof.
  induction l as [|c l IH]; intros Hin; [by apply elem_of_nil in Hin|].
  simpl. destruct (decide (c = ref)) as [->|Hne].
  - by exists [], l.
  - apply elem_of_cons in Hin as [->|Hin]; [done|].
    destruct (IH Hin) as (l1 & l2 & -> & ->). by exists (c :: l1), l2.
Qed.

Lemma before_cons (x y c : nat) (l : list nat) :
  before x y l → before x y (c :: l).
Proof. intros (l1 & l2 & l3 & ->). by exists (c :: l1), l2, l3. Qed.

Lemma before_head (x y : nat) (l : list nat) : y ∈ l → before x y (x :: l).
Proof.
  intros Hy. apply list_elem_of_split in Hy as (l2 & l3 & ->). by exists [], l2, l3.
Qed.

Lemma before_inv (x y c : nat) (l : list nat) :
  before x y (c :: l) → (c = x ∧ y ∈ l) ∨ before x y l.
Proof.
  intros (l1 & l2 & l3 & Heq). destruct l1 as [|c' l1]; simpl in Heq.
  - injection Heq as -> ->. left. split; [done|]. list_mem.
  - injection Heq as -> ->. right. by exists l1, l2, l3.
Qed.

(** Placing a new child before [t] keeps every earlier order. *)
Lemma before_insert (x y tag t : nat) (l1 l2 : list nat) :
  before x y (l1 ++ t :: l2) → before x y (l1 ++ tag :: t :: l2).
Proof.
  induction l1 as [|a l1 IH]; simpl; intros Hb.
  - by apply before_cons.
  - apply before_inv in Hb as [[-> Hy]|Hb].
    + apply before_head. list_mem.
    + apply before_cons, IH, Hb.
Qed.

(** The new child comes directly before [t]. *)
Lemma before_inserted (tag t : nat) (l1 l2 : list nat) :
  before tag t (l1 ++ tag :: t :: l2).
Proof. by exists l1, [], l2. Qed.

Lemma before_inserted_after (tag t y : nat) (l1 l2 : list nat) :
  y ∈ l2 → before tag y (l1 ++ tag :: t :: l2).
Proof.
  intros Hy. apply list_elem_of_split in Hy as (m1 & m2 & ->).
  by exists l1, (t :: m1), m2.
Qed.

Lemma before_inserted_before (tag t x : nat) (l1 l2 : list nat) :
  x ∈ l1 → before x tag (l1 ++ tag :: t :: l2).
Proof.
  intros Hx. apply list_elem_of_split in Hx as (m1 & m2 & ->).
  exists m1, m2, (t :: l2). by list_norm.
Qed.

(** ** Precedence and the search for the next bucket *)

Lemma rank_range (k : Name) : -1 ≤ rank k < 9.
Proof. destruct k as [[]|m]; vm_compute; split; congruence. Qed.

Lemma rank_known (b : Bucket) : 0 ≤ rank (Known b).
Proof. destruct b; vm_compute; congruence. Qed.

Lemma rank_lookup (b : Bucket) :
  styleBucketOrdering !! Z.to_nat (rank (Known b)) = Some b.
Proof. by destruct b. Qed.

Lemma lookup_rank (i : nat) (b : Bucket) :
  styleBucketOrdering !! i = Some b → rank (Known b) = Z.of_nat i.
Proof.
  unfold styleBucketOrdering.
  do 9 (destruct i as [|i]; [by intros [= <-]|]).
  simpl. discriminate.
Qed.

Lemma rank_inj (b1 b2 : Bucket) : rank (Known b1) = rank (Known b2) → b1 = b2.
Proof.
  intros Heq. pose proof (rank_lookup b1) as H1.
  rewrite Heq, rank_lookup in H1. by injection H1.
Qed.

(** A name with a place in the ordering is one of the nine buckets. *)
Lemma rank_nonneg (k : Name) : 0 ≤ rank k → ∃ b, k = Known b.
Proof. destruct k as [b|m]; [by exists b|]. vm_compute. congruence. Qed.

Lemma findNextBucket_Some (cache : gmap Name nat) (bs : list Bucket) (t : nat) :
  findNextBucket cache bs = Some t →
  ∃ i b, bs !! i = Some b ∧ cache !! Known b = Some t ∧
         ∀ j b', (j < i)%nat → bs !! j = Some b' → cache !! Known b' = None.
Proof.
  induction bs as [|b bs IH]; simpl; [discriminate|].
  destruct (cache !! Known b) as [t'|] eqn:Eb.
  - intros [= ->]. exists 0%nat, b. split; [done|]. split; [done|]. lia.
  - intros Hf. destruct (IH Hf) as (i & b' & Hi & Hc & Hlt).
    exists (S i), b'. split; [done|]. split; [done|].
    intros [|j] b'' Hj; simpl.
    + by intros [= <-].
    + apply Hlt. lia.
Qed.

Lemma findNextBucket_None (cache : gmap Name nat) (bs : list Bucket) :
  findNextBucket cache bs = None → ∀ b, b ∈ bs → cache !! Known b = None.
Proof.
  induction bs as [|b bs IH]; simpl; intros Hf b' Hin.
  - by apply elem_of_nil in Hin.
  - destruct (cache !! Known b) eqn:Eb; [discriminate|].
    apply elem_of_cons in Hin as [->|Hin]; [done|]. by apply IH.
Qed.

(** The loop returns the element of the nearest cached bucket above. *)
Lemma findNextBucket_nearest (rt : Runtime) (k : Name) (t : nat) :
  findNextBucket (styleBucketsInHead rt)
    (drop (Z.to_nat (rank k + 1)) styleBucketOrdering) = Some t →
  nearest_higher rt k t.
Proof.
  intros Hf. apply findNextBucket_Some in Hf as (i & b' & Hi & Hc & Hlt).
  pose proof (rank_range k) as Hr.
  rewrite lookup_drop in Hi. pose proof (lookup_rank _ _ Hi) as Hr'.
  exists b'. split; [lia|]. split; [done|].
  intros b'' [Hlo Hhi]. pose proof (rank_range (Known b'')) as Hr''.
  apply (Hlt (Z.to_nat (rank (Known b'') - rank k - 1))); [lia|].
  rewrite lookup_drop.
  replace (Z.to_nat (rank k + 1) + Z.to_nat (rank (Known b'') - rank k - 1))%nat
    with (Z.to_nat (rank (Known b''))) by lia.
  apply rank_lookup.
Qed.

Lemma findNextBucket_no_higher (rt : Runtime) (k : Name) :
  findNextBucket (styleBucketsInHead rt)
    (drop (Z.to_nat (rank k + 1)) styleBucketOrdering) = None →
  no_higher rt k.
Proof.
  intros Hf b' Hlt. apply (findNextBucket_None _ _ Hf).
  pose proof (rank_range k) as Hr. pose proof (rank_range (Known b')) as Hr'.
  apply list_elem_of_lookup. exists (Z.to_nat (rank (Known b') - rank k - 1)).
  rewrite lookup_drop.
  replace (Z.to_nat (rank k + 1) + Z.to_nat (rank (Known b') - rank k - 1))%nat
    with (Z.to_nat (rank (Known b'))) by lia.
  apply rank_lookup.
Qed.

(** ** The state between calls *)

Lemma initial_consistent (n : nat) : consistent (initial n).
Proof.
  assert (Hempty : ∀ k t, styleBucketsInHead (initial n) !! k = Some t → False).
  { intros k t. change (styleBucketsInHead (initial n)) with (∅ : gmap Name nat).
    by rewrite lookup_empty. }
  split.
  - apply NoDup_seq.
  - intros x Hx. apply elem_of_seq in Hx. simpl. lia.
  - intros k t Hk. by destruct (Hempty k t).
  - intros k1 k2 t Hk. by destruct (Hempty k1 t).
  - intros k1 k2 t1 t2 Hk. by destruct (Hempty k1 t1).
Qed.

Lemma placed_elem_of (rt : Runtime) (k : Name) (tag : nat) (children : list nat) (x : nat) :
  placed rt k tag children → x ∈ children ↔ x = tag ∨ x ∈ head (document rt).
Proof.
  intros [(t & l1 & l2 & _ & -> & ->)|[_ ->]];
    rewrite ?elem_of_app, ?elem_of_cons, ?elem_of_nil; tauto.
Qed.

Lemma consistent_placed (rt : Runtime) (k : Name) (el : HTMLStyleElement)
    (children : list nat) :
  consistent rt →
  styleBucketsInHead rt !! k = None →
  placed rt k (next_node (document rt)) children →
  consistent (mkRuntime
                (mkDocument children
                   (<[next_node (document rt) := el]> (elements (document rt)))
                   (S (next_node (document rt))))
                (<[k := next_node (document rt)]> (styleBucketsInHead rt))).
Proof.
  intros [Hnd Hfresh Hlive Hinj Hord] Hnone Hpl.
  set (tag := next_node (document rt)) in *.
  assert (Htag : tag ∉ head (document rt)).
  { intros Hin. apply Hfresh in Hin. lia. }
  assert (Hold : ∀ k0 t0, styleBucketsInHead rt !! k0 = Some t0 → t0 ≠ tag).
  { intros k0 t0 Hk0 ->. by apply Hlive in Hk0 as [? _]. }
  split; simpl.
  - destruct Hpl as [(t & l1 & l2 & _ & Hh & ->)|[_ ->]].
    + rewrite <- Permutation_middle. apply NoDup_cons. split.
      * by rewrite <- Hh.
      * by rewrite <- Hh.
    + apply NoDup_app. split; [done|]. split; [|apply NoDup_singleton].
      intros x Hx Hx'. apply list_elem_of_singleton in Hx' as ->. done.
  - intros x Hx. apply (placed_elem_of _ _ _ _ x Hpl) in Hx as [->|Hx]; [lia|].
    apply Hfresh in Hx. lia.
  - intros k0 t0 Hk0. rewrite (placed_elem_of _ _ _ _ t0 Hpl).
    destruct (decide (k = k0)) as [<-|Hne].
    + rewrite lookup_insert_eq in Hk0. injection Hk0 as <-.
      split; [by left|]. rewrite lookup_insert_eq. by eexists.
    + rewrite lookup_insert_ne in Hk0 by done.
      destruct (Hlive _ _ Hk0) as [Hin Hel]. split; [by right|].
      rewrite lookup_insert_ne; [done|]. intros <-. done.
  - intros k1 k2 t0 H1 H2.
    destruct (decide (k = k1)) as [<-|Hne1];
      destruct (decide (k = k2)) as [<-|Hne2]; [done|..].
    + rewrite lookup_insert_eq in H1. injection H1 as <-.
      rewrite lookup_insert_ne in H2 by done. by destruct (Hold _ _ H2).
    + rewrite lookup_insert_eq in H2. injection H2 as <-.
      rewrite lookup_insert_ne in H1 by done. by destruct (Hold _ _ H1).
    + rewrite lookup_insert_ne in H1, H2 by done. by apply (Hinj _ _ t0).
  - intros k1 k2 t1 t2 H1 H2 Hlt. simpl in *.
    destruct (decide (k = k1)) as [<-|Hne1];
      destruct (decide (k = k2)) as [<-|Hne2].
    + lia.
    + rewrite lookup_insert_eq in H1. injection H1 as <-.
      rewrite lookup_insert_ne in H2 by done.
      pose proof (rank_range k) as Hrk.
      destruct (rank_nonneg k2) as [b2 ->]; [lia|].
      destruct Hpl as [(t & l1 & l2 & (b' & Hb' & Hc' & Hbetween) & Hh & ->)|[Hno ->]].
      * destruct (decide (b2 = b')) as [->|Hne'].
        -- rewrite Hc' in H2. injection H2 as <-. apply before_inserted.
        -- assert (rank (Known b') < rank (Known b2)).
           { destruct (Z.lt_trichotomy (rank (Known b2)) (rank (Known b')))
               as [Hl|[He|Hg]].
             - rewrite Hbetween in H2 by lia. discriminate.
             - by apply rank_inj in He.
             - done. }
           apply before_inserted_after.
           apply (before_split_r t t2 l1 l2); rewrite <- Hh; [done|].
           by apply (Hord (Known b') (Known b2)).
      * rewrite Hno in H2 by done. discriminate.
    + rewrite lookup_insert_eq in H2. injection H2 as <-.
      rewrite lookup_insert_ne in H1 by done.
      destruct Hpl as [(t & l1 & l2 & (b' & Hb' & Hc' & Hbetween) & Hh & ->)|[Hno ->]].
      * apply before_inserted_before.
        apply (before_split_l t1 t l1 l2); rewrite <- Hh; [done|].
        apply (Hord k1 (Known b')); [done|done|lia].
      * apply before_snoc. by apply (Hlive k1).
    + rewrite lookup_insert_ne in H1, H2 by done.
      pose proof (Hord _ _ _ _ H1 H2 Hlt) as Hb.
      destruct Hpl as [(t & l1 & l2 & _ & Hh & ->)|[_ ->]].
      * rewrite Hh in Hb. by apply before_insert.
      * by apply before_app_r.
Qed.

Lemma consistent_set_element (style : nat) (el : HTMLStyleElement) (rt : Runtime) :
  consistent rt → consistent (set_element style el rt).
Proof.
  intros [Hnd Hfresh Hlive Hinj Hord]. split; simpl; [done|done| |done|done].
  intros k t Hk. destruct (Hlive _ _ Hk) as [Hin Hel]. split; [done|].
  destruct (decide (style = t)) as [->|Hne].
  - rewrite lookup_insert_eq. by eexists.
  - by rewrite lookup_insert_ne.
Qed.

Section WithHost.
Context `{Host}.

(** A bucket that is cached is returned as it is. *)
Lemma lazyAdd_cached (k : Name) (opts : StyleSheetOpts) (rt : Runtime) (tag : nat) :
  styleBucketsInHead rt !! k = Some tag →
  lazyAddStyleBucketToHead k opts rt = (inr tag, rt).
Proof. intros Hk. unfold lazyAddStyleBucketToHead. by rewrite Hk. Qed.

(** A key that is not cached gets a new element, placed by precedence. *)
Lemma lazyAdd_fresh (k : Name) (opts : StyleSheetOpts) (rt : Runtime) :
  consistent rt →
  styleBucketsInHead rt !! k = None →
  ∃ el children,
    lazyAddStyleBucketToHead k opts rt
    = (inr (next_node (document rt)),
       mkRuntime
         (mkDocument children
            (<[next_node (document rt) := el]> (elements (document rt)))
            (S (next_node (document rt))))
         (<[k := next_node (document rt)]> (styleBucketsInHead rt)))
    ∧ childNodes el = [""] ∧ cssRules el = parse_text [""]
    ∧ placed rt k (next_node (document rt)) children.
Proof.
  intros Hc Hnone. unfold lazyAddStyleBucketToHead. rewrite Hnone.
  fold (rank k). unfold createStyleTag.
  set (attr := match opt_nonce opts with
               | Some n => if decide (n = "") then None else Some n
               | None => None end).
  exists (mkStyle attr [""] (parse_text [""])).
  destruct (findNextBucket _ _) as [t|] eqn:Hf; simpl.
  - apply findNextBucket_nearest in Hf as Hnear.
    assert (Hin : t ∈ head (document rt)).
    { destruct Hnear as (b' & _ & Hb' & _). by apply (cons_live _ Hc (Known b')). }
    destruct (insert_before_Some (next_node (document rt)) t _ Hin)
      as (l1 & l2 & Hh & ->).
    eexists. split; [reflexivity|]. split; [done|]. split; [done|].
    left. by exists t, l1, l2.
  - apply findNextBucket_no_higher in Hf.
    eexists. split; [reflexivity|]. split; [done|]. split; [done|].
    by right.
Qed.

Lemma insertRule_at_end (rules : list string) (css : string) :
  insertRule rules css (length rules)
  = match insertRule_check rules css (length rules) with
    | Some e => inl e
    | None => inr (rules ++ [css])
    end.
Proof.
  unfold insertRule. destruct (decide _) as [_|Hn]; [|lia].
  by rewrite firstn_all, skipn_all.
Qed.

(** The first half of a call: the bucket's element is there afterwards. *)
Lemma lazyAdd_ok (k : Name) (opts : StyleSheetOpts) (rt : Runtime) :
  consistent rt →
  ∃ tag el rt1,
    lazyAddStyleBucketToHead k opts rt = (inr tag, rt1) ∧
    consistent rt1 ∧
    styleBucketsInHead rt1 !! k = Some tag ∧
    tag ∈ head (document rt1) ∧
    elements (document rt1) !! tag = Some el.
Proof.
  intros Hc. destruct (styleBucketsInHead rt !! k) as [tag|] eqn:Hk.
  - destruct (cons_live _ Hc _ _ Hk) as [Hin [el Hel]].
    exists tag, el, rt. by rewrite (lazyAdd_cached _ _ _ _ Hk).
  - destruct (lazyAdd_fresh k opts rt Hc Hk) as (el & children & -> & _ & _ & Hpl).
    eexists _, el, _. split; [reflexivity|]. split; [|split; [|split]]; simpl.
    + by apply consistent_placed.
    + apply lookup_insert_eq.
    + apply (placed_elem_of _ _ _ _ _ Hpl). by left.
    + apply lookup_insert_eq.
Qed.

Lemma set_element_same (tag : nat) (el : HTMLStyleElement) (rt : Runtime) :
  elements (document rt) !! tag = Some el → set_element tag el rt = rt.
Proof.
  intros Hel. unfold set_element. rewrite (insert_id _ _ _ Hel).
  by destruct rt as [[? ? ?] ?].
Qed.

(** One call: the bucket's element is put in place, and then receives the
    text as its mode and the host have it. *)
Lemma createStyleSheet_step (production : bool) (opts : StyleSheetOpts)
    (css : string) (rt : Runtime) :
  consistent rt →
  ∃ tag el rt1,
    lazyAddStyleBucketToHead (getStyleBucketName css) opts rt = (inr tag, rt1) ∧
    consistent rt1 ∧
    styleBucketsInHead rt1 !! getStyleBucketName css = Some tag ∧
    tag ∈ head (document rt1) ∧
    elements (document rt1) !! tag = Some el ∧
    createStyleSheet production opts css rt
    = (fst (append_rule production css el),
       set_element tag (snd (append_rule production css el)) rt1).
Proof.
  intros Hc.
  destruct (lazyAdd_ok (getStyleBucketName css) opts rt Hc)
    as (tag & el & rt1 & Hadd & Hc1 & Hk & Hin & Hel).
  exists tag, el, rt1. repeat (split; [done|]).
  unfold createStyleSheet, append_rule. rewrite Hadd.
  destruct production.
  - unfold sheet_of. destruct (decide _) as [_|?]; [|done].
    rewrite Hel, insertRule_at_end.
    destruct (insertRule_check _ _ _) as [e|]; simpl; [|done].
    by rewrite (set_element_same _ _ _ Hel).
  - by rewrite Hel.
Qed.

Lemma createStyleSheet_consistent (production : bool) (opts : StyleSheetOpts)
    (css : string) (rt : Runtime) :
  consistent rt → consistent (snd (createStyleSheet production opts css rt)).
Proof.
  intros Hc.
  destruct (createStyleSheet_step production opts css rt Hc)
    as (tag & el & rt1 & _ & Hc1 & _ & _ & _ & ->).
  simpl. by apply consistent_set_element.
Qed.

Lemma applySheets_cons (production : bool) (opts : StyleSheetOpts)
    (css : string) (rest : list string) (rt : Runtime) :
  applySheets production opts (css :: rest) rt
  = (fst (createStyleSheet production opts css rt)
       :: fst (applySheets production opts rest
                 (snd (createStyleSheet production opts css rt))),
     snd (applySheets production opts rest
            (snd (createStyleSheet production opts css rt)))).
Proof.
  simpl. destruct (createStyleSheet production opts css rt) as [outcome rt1].
  simpl. by destruct (applySheets production opts rest rt1).
Qed.

(** Any sequence of calls leaves a consistent state. *)
Lemma applySheets_consistent (production : bool) (opts : StyleSheetOpts)
    (sheets : list string) (rt : Runtime) :
  consistent rt → consistent (snd (applySheets production opts sheets rt)).
Proof.
  revert rt. induction sheets as [|css sheets IH]; intros rt Hc; [done|].
  rewrite applySheets_cons. simpl. by apply IH, createStyleSheet_consistent.
Qed.

Lemma after_consistent (production : bool) (opts : StyleSheetOpts)
    (n : nat) (sheets : list string) :
  consistent (after production opts n sheets).
Proof. apply applySheets_consistent, initial_consistent. Qed.

(** Outside production every call returns. *)
Lemma createStyleSheet_development (opts : StyleSheetOpts) (css : string) (rt : Runtime) :
  consistent rt → fst (createStyleSheet false opts css rt) = inr tt.
Proof.
  intros Hc.
  by destruct (createStyleSheet_step false opts css rt Hc)
    as (tag & el & rt1 & _ & _ & _ & _ & _ & ->).
Qed.

Lemma applySheets_development (opts : StyleSheetOpts) (sheets : list string)
    (rt : Runtime) :
  consistent rt →
  Forall (λ outcome, outcome = inr tt) (fst (applySheets false opts sheets rt)).
Proof.
  revert rt. induction sheets as [|css sheets IH]; intros rt Hc; [constructor|].
  rewrite applySheets_cons. simpl. constructor.
  - by apply createStyleSheet_development.
  - by apply IH, createStyleSheet_consistent.
Qed.

(** ** The claims about the runtime *)

(** C1. After any finite sequence of calls, made on a page whose head
    holds any number of other nodes, whether the calls returned or raised,
    any two keys of the cache (the nine buckets among them) have their
    elements in the head in the order of their precedence; outside
    production all the calls have returned. *)
Theorem applySheets_ordered (production : bool) (opts : StyleSheetOpts)
    (n : nat) (sheets : list string) :
  (∀ k1 k2 t1 t2,
     styleBucketsInHead (after production opts n sheets) !! k1 = Some t1 →
     styleBucketsInHead (after production opts n sheets) !! k2 = Some t2 →
     rank k1 < rank k2 →
     before t1 t2 (head (document (after production opts n sheets)))) ∧
  (production = false →
   Forall (λ outcome, outcome = inr tt)
          (fst (applySheets production opts sheets (initial n)))).
Proof.
  split.
  - apply (cons_ordered _ (after_consistent production opts n sheets)).
  - intros ->. apply applySheets_development, initial_consistent.
Qed.

(** C6. When a call targets a bucket that has no element yet, on a state
    reached by earlier calls, it creates one new element for that bucket
    (new to the head, and the only change to the cache) and places it in
    the head directly before the element of the nearest cached bucket of
    strictly higher precedence, or at the end when no higher bucket is
    cached; this holds whether the call then returns or raises, and
    outside production it returns. *)
Theorem applySheet_new_bucket (production : bool) (opts : StyleSheetOpts)
    (n : nat) (sheets : list string) (css : string) (rt : Runtime) :
  rt = after production opts n sheets →
  styleBucketsInHead rt !! getStyleBucketName css = None →
  (next_node (document rt) ∉ head (document rt)) ∧
  styleBucketsInHead (snd (createStyleSheet production opts css rt))
  = <[getStyleBucketName css := next_node (document rt)]> (styleBucketsInHead rt) ∧
  placed rt (getStyleBucketName css) (next_node (document rt))
         (head (document (snd (createStyleSheet production opts css rt)))) ∧
  (production = false → fst (createStyleSheet production opts css rt) = inr tt).
Proof.
  intros -> Hnone.
  pose proof (after_consistent production opts n sheets) as Hc.
  set (rt := after production opts n sheets) in *.
  destruct (lazyAdd_fresh _ opts rt Hc Hnone) as (el & children & Hadd & _ & _ & Hpl).
  destruct (createStyleSheet_step production opts css rt Hc)
    as (tag & el' & rt1 & Hadd' & _ & _ & _ & _ & Hstep).
  rewrite Hadd in Hadd'. injection Hadd' as <- <-.
  rewrite Hstep. simpl. split; [|split; [done|split; [done|]]].
  - intros Hh. apply (cons_fresh _ Hc) in Hh. lia.
  - by intros ->.
Qed.


(** A second call with the same sheet adds its text node once more. *)
Lemma createStyleSheet_again (opts : StyleSheetOpts) (css : string) (rt : Runtime)
    (tag : nat) (el : HTMLStyleElement) :
  consistent rt →
  styleBucketsInHead rt !! getStyleBucketName css = Some tag →
  elements (document rt) !! tag = Some el →
  ∃ el', element_of (getStyleBucketName css) (snd (createStyleSheet false opts css rt))
         = Some el' ∧
         occurrences css (childNodes el') = S (occurrences css (childNodes el)).
Proof.
  intros Hc Hk Hel.
  destruct (createStyleSheet_step false opts css rt Hc)
    as (tag' & el0 & rt1 & Hadd & _ & _ & _ & Hel0 & ->).
  rewrite (lazyAdd_cached _ _ _ _ Hk) in Hadd. injection Hadd as <- <-.
  rewrite Hel in Hel0. injection Hel0 as <-.
  eexists. split.
  - unfold element_of. simpl. rewrite Hk. apply lookup_insert_eq.
  - simpl. unfold occurrences. rewrite filter_app, length_app.
    rewrite filter_cons_True by done. simpl. lia.
Qed.

(** C2 (on the code). Two calls with the same sheet leave its rule text
    twice in the bucket's element: as two text nodes outside production,
    whatever the host, and as two rules of the sheet in production when the
    host takes the rule each time. *)
Theorem applySheet_twice_duplicates :
  element_of (Known BCatchAll)
    (after false (mkOpts None) 0 ["._a1234567{color:red}"; "._a1234567{color:red}"])
  = Some (mkStyle None [""; "._a1234567{color:red}"; "._a1234567{color:red}"]
            (parse_text [""; "._a1234567{color:red}"; "._a1234567{color:red}"]))
  ∧ occurrences "._a1234567{color:red}"
      [""; "._a1234567{color:red}"; "._a1234567{color:red}"] = 2%nat
  ∧ (insertRule_check (parse_text [""]) "._a1234567{color:red}"
       (length (parse_text [""])) = None →
     insertRule_check (parse_text [""] ++ ["._a1234567{color:red}"])
       "._a1234567{color:red}"
       (length (parse_text [""] ++ ["._a1234567{color:red}"])) = None →
     element_of (Known BCatchAll)
       (after true (mkOpts None) 0 ["._a1234567{color:red}"; "._a1234567{color:red}"])
     = Some (mkStyle None [""]
               (parse_text [""]
                ++ ["._a1234567{color:red}"; "._a1234567{color:red}"]))).
Proof.
  split; [|split].
  - vm_compute. reflexivity.
  - reflexivity.
  - intros H1 H2.
    set (s := "._a1234567{color:red}") in *.
    unfold after. rewrite applySheets_cons, applySheets_cons. simpl snd.
    pose proof (initial_consistent 0) as Hc0.
    destruct (createStyleSheet_step true (mkOpts None) s (initial 0) Hc0)
      as (tag & el & rt1 & Hadd & Hc1 & Hk & Hin & Hel & Hstep).
    assert (Hs : getStyleBucketName s = Known BCatchAll) by reflexivity.
    rewrite Hs in *.
    assert (Hadd0 : lazyAddStyleBucketToHead (Known BCatchAll) (mkOpts None) (initial 0)
                    = (inr 0%nat,
                       mkRuntime
                         (mkDocument [0%nat]
                            (<[0%nat := mkStyle None [""] (parse_text [""])]> ∅) 1)
                         (<[Known BCatchAll := 0%nat]> ∅))) by reflexivity.
    rewrite Hadd0 in Hadd. injection Hadd as <- <-.
    simpl in Hel. rewrite lookup_insert_eq in Hel. injection Hel as <-.
    rewrite Hstep. unfold append_rule at 1 2. simpl cssRules. rewrite H1. simpl snd.
    set (el1 := mkStyle None [""] (parse_text [""] ++ [s])).
    set (rt2 := set_element _ el1 _).
    assert (Hc2 : consistent rt2) by (by apply consistent_set_element).
    destruct (createStyleSheet_step true (mkOpts None) s rt2 Hc2)
      as (tag' & el' & rt3 & Hadd' & _ & _ & _ & Hel' & Hstep').
    rewrite Hs in *.
    rewrite (lazyAdd_cached (Known BCatchAll) _ rt2 0%nat)
      in Hadd' by (subst rt2; simpl; apply lookup_insert_eq).
    injection Hadd' as <- <-.
    assert (Hel1 : el' = el1).
    { subst rt2. simpl in Hel'. rewrite lookup_insert_eq in Hel'. by injection Hel' as <-. }
    subst el'. rewrite Hstep'. unfold append_rule. subst el1. simpl cssRules.
    rewrite H2. unfold element_of. simpl.
    rewrite lookup_insert_eq, lookup_insert_eq.
    by rewrite <- app_assoc.
Qed.

End WithHost.

(** ** Evaluations on the sample host *)

(** A hover sheet and a plain sheet, in both call orders, on a head with
    one other node. *)
Lemma applySheets_ordered_witness :
  before 2%nat 1%nat
    (head (document (after (H := sample_host) false (mkOpts None) 1
                       ["._aaaa1111:hover{color:red}"; "._bbbb2222{color:blue}"])))
  ∧
  before 1%nat 2%nat
    (head (document (after (H := sample_host) false (mkOpts None) 1
                       ["._bbbb2222{color:blue}"; "._aaaa1111:hover{color:red}"]))).
Proof.
  split.
  - apply (proj1 (applySheets_ordered (H := sample_host) false (mkOpts None) 1
                    ["._aaaa1111:hover{color:red}"; "._bbbb2222{color:blue}"])
             (Known BCatchAll) (Known BHover)); reflexivity.
  - apply (proj1 (applySheets_ordered (H := sample_host) false (mkOpts None) 1
                    ["._bbbb2222{color:blue}"; "._aaaa1111:hover{color:red}"])
             (Known BCatchAll) (Known BHover)); reflexivity.
Defined.

Lemma applySheet_new_bucket_witness :
  styleBucketsInHead
    (after (H := sample_host) false (mkOpts None) 1 ["._aaaa1111:hover{color:red}"])
    !! Known BHover = Some 1%nat
  ∧ placed (after (H := sample_host) false (mkOpts None) 1 ["._aaaa1111:hover{color:red}"])
      (Known BFocus) 2%nat
      (head (document
         (snd (createStyleSheet (H := sample_host) false (mkOpts None)
                 "._bbbb2222:focus{color:blue}"
                 (after (H := sample_host) false (mkOpts None) 1
                    ["._aaaa1111:hover{color:red}"]))))).
Proof.
  split; [reflexivity|].
  apply (applySheet_new_bucket (H := sample_host) false (mkOpts None) 1
           ["._aaaa1111:hover{color:red}"] "._bbbb2222:focus{color:blue}"
           (after (H := sample_host) false (mkOpts None) 1
              ["._aaaa1111:hover{color:red}"]) eq_refl).
  reflexivity.
Defined.



Lemma applySheet_twice_duplicates_witness :
  element_of (Known BCatchAll)
    (after (H := sample_host) true (mkOpts None) 0
       ["._a1234567{color:red}"; "._a1234567{color:red}"])
  = Some (mkStyle None [""] ["._a1234567{color:red}"; "._a1234567{color:red}"]).
Proof.
  apply (proj2 (proj2 (applySheet_twice_duplicates (H := sample_host))));
    reflexivity.
Defined.

End SheetFacts.

(** * Properties of the build-time transform *)
Module TransformFacts.
Import JsStringFacts Transform.

(** ** [unique] *)

Lemma unique_from_spec (seen arr : list string) :
  NoDup seen →
  NoDup (unique_from seen arr) ∧
  ∀ x, x ∈ unique_from seen arr ↔ x ∈ seen ∨ x ∈ arr.
Proof.
  revert seen. induction arr as [|a arr IH]; intros seen Hnd; simpl.
  - split; [done|]. intros x. rewrite elem_of_nil. tauto.
  - destruct (decide (a ∈ seen)) as [Hin|Hnot].
    + destruct (IH seen Hnd) as [Hnd' Hel]. split; [done|].
      intros x. rewrite Hel, elem_of_cons.
      split; [tauto|]. intros [?|[->|?]]; tauto.
    + assert (Hnd1 : NoDup (seen ++ [a])).
      { apply NoDup_app. split; [done|]. split; [|apply NoDup_singleton].
        intros x Hx Hx'. apply list_elem_of_singleton in Hx' as ->. done. }
      destruct (IH _ Hnd1) as [Hnd' Hel]. split; [done|].
      intros x. rewrite Hel, elem_of_app, list_elem_of_singleton, elem_of_cons. tauto.
Qed.

Lemma unique_NoDup (arr : list string) : NoDup (unique arr).
Proof. apply unique_from_spec, NoDup_nil_2. Qed.

Lemma unique_elem_of (arr : list string) (x : string) : x ∈ unique arr ↔ x ∈ arr.
Proof.
  unfold unique. destruct (unique_from_spec [] arr NoDup_nil_2) as [_ Hel].
  rewrite Hel, elem_of_nil. tauto.
Qed.

(** ** Text carried by the error message *)

Lemma append_nil_r (s : string) : s +:+ "" = s.
Proof. induction s as [|c s IH]; str_simpl; [reflexivity | by rewrite IH]. Qed.

Lemma carries_here (s post : string) : carries (s +:+ post) s.
Proof. by exists "", post. Qed.

Lemma carries_end (pre s : string) : carries (pre +:+ s) s.
Proof. exists pre, "". by rewrite append_nil_r. Qed.

Lemma carries_append_l (a t s : string) : carries t s → carries (a +:+ t) s.
Proof.
  intros (pre & post & ->). exists (a +:+ pre), post. by rewrite append_assoc.
Qed.

Lemma unhandled_message_carries (css message : string) :
  carries (unhandled_message css message) css ∧
  carries (unhandled_message css message) message.
Proof.
  unfold unhandled_message. split.
  - do 8 apply carries_append_l. apply carries_here.
  - do 13 apply carries_append_l. apply carries_end.
Qed.

Section Pipeline.
Context {U : Utils} {P : Postcss}.

(** ** [groupGlobalRules] *)

Lemma groupGlobalRules_each_fold (h : string) (top nodes orphanDecls : list Node) :
  foldl (groupGlobalRules_each h) (nodes, orphanDecls) top
  = (nodes ++ omap (scoped h) top,
     orphanDecls ++ filter (λ n, is_decl n = true) top).
Proof.
  revert nodes orphanDecls.
  induction top as [|n top IH]; intros nodes orphanDecls; simpl.
  - by rewrite !app_nil_r.
  - destruct n as [prop value imp|sel ch|name params ch|text]; simpl; rewrite IH.
    + rewrite filter_cons_True by done. by rewrite <- app_assoc.
    + rewrite filter_cons_False by done. by rewrite <- app_assoc.
    + by rewrite filter_cons_False by done.
    + by rewrite filter_cons_False by done.
Qed.

Lemma groupGlobalRules_nodes_eq (css : string) (top : list Node) :
  groupGlobalRules_nodes css top
  = ("." +:+ hash css, wrapper css top ++ omap (scoped (hash css)) top).
Proof.
  unfold groupGlobalRules_nodes, wrapper.
  rewrite groupGlobalRules_each_fold. simpl.
  by destruct (filter _ top).
Qed.


Lemma omap_scoped_cons (h : string) (n : Node) (l : list Node) :
  omap (scoped h) (n :: l)
  = match scoped h n with
    | Some y => y :: omap (scoped h) l
    | None => omap (scoped h) l
    end.
Proof. reflexivity. Qed.





(** No at-rule is left at the top level. *)
Lemma groupGlobalRules_no_atrule (css : string) (top : list Node) :
  Forall (λ n, is_atrule n = false) (snd (groupGlobalRules_nodes css top)).
Proof.
  rewrite groupGlobalRules_nodes_eq. simpl. apply Forall_app. split.
  - unfold wrapper. destruct (filter _ top); repeat constructor.
  - induction top as [|n top IH]; simpl; [constructor|].
    destruct n; simpl; try done. by constructor.
Qed.






(** ** The plugin list *)






(** ** [transformCss] *)

Lemma plugins_env (w w' : Process) (opts : TransformOpts) (isGlobal : bool) :
  bool_decide (env_AUTOPREFIXER w = Some "off")
  = bool_decide (env_AUTOPREFIXER w' = Some "off") →
  plugins w opts isGlobal = plugins w' opts isGlobal.
Proof.
  intros Henv. unfold plugins.
  destruct (decide (env_AUTOPREFIXER w = Some "off")) as [Hw|Hw],
           (decide (env_AUTOPREFIXER w' = Some "off")) as [Hw'|Hw']; try done.
  - by rewrite bool_decide_eq_true_2, bool_decide_eq_false_2 in Henv.
  - by rewrite bool_decide_eq_false_2, bool_decide_eq_true_2 in Henv.
Qed.

Lemma transformCss_fst (w : Process) (css : string) (opts : TransformOpts)
    (isGlobal : bool) :
  fst (transformCss w css opts isGlobal)
  = match process (plugins w opts isGlobal) css (mkOut [] []) with
    | inr (_, out) => inr (mkResult (out_sheets out) (unique (out_classNames out)))
    | inl e => inl (mkError "css" "Unhandled exception"
                      (unhandled_message css (thrown_message e)))
    end.
Proof.
  unfold transformCss.
  rewrite (plugins_env (mkProcess (env_AUTOPREFIXER w) _) w) by done.
  by destruct (process _ _ _) as [e|[root out]].
Qed.

(** C8. A call either returns a full result, or raises one error whose
    message carries the input text and the message of what was thrown
    underneath; no result comes with an error.  When the parser rejects
    the input, the call raises. *)
Theorem transformCss_all_or_nothing (w : Process) (css : string)
    (opts : TransformOpts) (isGlobal : bool) :
  ((∃ r, fst (transformCss w css opts isGlobal) = inr r) ∨
   (∃ e, process (plugins w opts isGlobal) css (mkOut [] []) = inl e ∧
         fst (transformCss w css opts isGlobal)
         = inl (mkError "css" "Unhandled exception"
                  (unhandled_message css (thrown_message e))) ∧
         carries (unhandled_message css (thrown_message e)) css ∧
         carries (unhandled_message css (thrown_message e)) (thrown_message e)))
  ∧ (∀ e, parse css = inl e →
          fst (transformCss w css opts isGlobal)
          = inl (mkError "css" "Unhandled exception"
                   (unhandled_message css (thrown_message e)))).
Proof.
  rewrite transformCss_fst. split.
  - destruct (process _ _ _) as [e|[root out]] eqn:Hp.
    + right. exists e. split; [done|]. split; [done|].
      apply unhandled_message_carries.
    + left. by eexists.
  - intros e He. unfold process. by rewrite He.
Qed.



(** C10. The class names a call returns have no duplicate, and they are
    the names the plugins reported, each kept once. *)
Theorem transformCss_classNames_unique (w : Process) (css : string)
    (opts : TransformOpts) (isGlobal : bool) (r : Result) :
  fst (transformCss w css opts isGlobal) = inr r →
  NoDup (classNames r) ∧
  ∃ root out,
    process (plugins w opts isGlobal) css (mkOut [] []) = inr (root, out) ∧
    sheets r = out_sheets out ∧
    ∀ x, x ∈ classNames r ↔ x ∈ out_classNames out.
Proof.
  rewrite transformCss_fst.
  destruct (process _ _ _) as [e|[root out]] eqn:Hp; [discriminate|].
  intros [= <-]. simpl. split; [apply unique_NoDup|].
  exists root, out. split; [done|]. split; [done|]. apply unique_elem_of.
Qed.

End Pipeline.

(** ** Evaluations on the sample instance *)



(** C4 (on the code).  The grouping pass looks at declarations, rules and
    comments only: a top-level at-rule is neither kept nor put under
    [.{hash} ], it is dropped, and its styles are in no sheet. *)
Theorem groupGlobalRules_drops_at_rules :
  (∀ (U : Utils) css top,
     Forall (λ n, is_atrule n = false) (snd (groupGlobalRules_nodes css top)))
  ∧ @groupGlobalRules_nodes sample_utils "@media print{.x{color:red}}"
      [AtRule "media" "print" [Rule ".x" [Decl "color" "red" false]]]
    = ("." +:+ sample_hash "@media print{.x{color:red}}", [])
  ∧ fst (@transformCss sample_utils
           (sample_postcss_of
              (λ _, inr [AtRule "media" "print" [Rule ".x" [Decl "color" "red" false]]]))
           (mkProcess None []) "@media print{.x{color:red}}" no_opts true)
    = inr (mkResult [] ["." +:+ sample_hash "@media print{.x{color:red}}"])
  ∧ @run_plugins
      (@plugins_after (sample_postcss_of (λ _, inr [])) (mkProcess None []) no_opts)
      (mkRoot "@media print{.x{color:red}}"
         [AtRule "media" "print" [Rule ".x" [Decl "color" "red" false]]])
      (mkOut [] [])
    = inr (mkRoot "@media print{.x{color:red}}"
             [AtRule "media" "print" [Rule ".x" [Decl "color" "red" false]]],
           mkOut ["@media print{.x{color:red}}"] []).
Proof.
  split; [intros U css top; apply groupGlobalRules_no_atrule|].
  split; [vm_compute; reflexivity|].
  split; vm_compute; reflexivity.
Qed.

Lemma transformCss_all_or_nothing_witness :
  parse (Postcss := sample_postcss) "color:red;.x{color:blue"
  = inl (ThrownError "<css input>:1:1: Unclosed block")
  ∧ fst (@transformCss sample_utils sample_postcss (mkProcess None [])
           "color:red;.x{color:blue" no_opts false)
    = inl (mkError "css" "Unhandled exception"
             (unhandled_message "color:red;.x{color:blue"
                "<css input>:1:1: Unclosed block")).
Proof.
  split; [reflexivity|].
  apply (proj2 (@transformCss_all_or_nothing sample_utils sample_postcss
                  (mkProcess None []) "color:red;.x{color:blue" no_opts false)
           (ThrownError "<css input>:1:1: Unclosed block")).
  reflexivity.
Defined.



(** A name reported twice is returned once. *)
Lemma transformCss_classNames_unique_witness :
  ∃ r, fst (@transformCss sample_utils sample_postcss (mkProcess None [])
              "color:red;color:red;background-color:#000" no_opts false) = inr r
       ∧ sheets r = ["._21701{color:red}"; "._21701{color:red}";
                     "._42881{background-color:#000}"]
       ∧ classNames r = ["_21701"; "_42881"]
       ∧ NoDup (classNames r).
Proof.
  eexists. split; [vm_compute; reflexivity|].
  split; [reflexivity|]. split; [reflexivity|].
  apply (@transformCss_classNames_unique sample_utils sample_postcss
           (mkProcess None []) "color:red;color:red;background-color:#000"
           no_opts false).
  vm_compute. reflexivity.
Defined.

End TransformFacts.

(** * The layout of the head and the content of the buckets *)
Module SheetLayoutFacts.
Import JsString JsStringFacts Sheet SheetFacts SheetLayout.

(** ** The bucket ordering as a list *)

Lemma styleBucketOrdering_NoDup : NoDup styleBucketOrdering.
Proof. apply (bool_decide_unpack _). vm_compute. exact I. Qed.

Lemma styleBucketOrdering_all (b : Bucket) : b ∈ styleBucketOrdering.
Proof. apply list_elem_of_lookup. eexists. apply rank_lookup. Qed.

Lemma styleBucketOrdering_split (b : Bucket) :
  styleBucketOrdering
  = take (Z.to_nat (rank (Known b))) styleBucketOrdering
    ++ b :: drop (S (Z.to_nat (rank (Known b)))) styleBucketOrdering.
Proof. symmetry. apply take_drop_middle, rank_lookup. Qed.

Lemma omap_cons {A B : Type} (f : A → option B) (a : A) (l : list A) :
  omap f (a :: l) = match f a with Some y => y :: omap f l | None => omap f l end.
Proof. reflexivity. Qed.

Lemma omap_ext_in {A B : Type} (f g : A → option B) (l : list A) :
  (∀ x, x ∈ l → f x = g x) → omap f l = omap g l.
Proof.
  induction l as [|a l IH]; intros Hfg; [done|].
  rewrite !omap_cons.
  rewrite (Hfg a) by (by left). rewrite IH; [done|].
  intros x Hx. apply Hfg. by right.
Qed.


(** The loop finds the first cached bucket of the rest. *)
Lemma findNextBucket_first (cache : gmap Name nat) (bs : list Bucket) :
  findNextBucket cache bs
  = match omap (λ b, cache !! Known b) bs with
    | [] => None
    | t :: _ => Some t
    end.
Proof.
  induction bs as [|b bs IH]; [done|].
  rewrite omap_cons. simpl. by destruct (cache !! Known b).
Qed.

Lemma insert_before_middle (tag t : nat) (pre post : list nat) :
  t ∉ pre → insert_before tag t (pre ++ t :: post) = Some (pre ++ tag :: t :: post).
Proof.
  induction pre as [|c pre IH]; intros Hnot; simpl.
  - by destruct (decide (t = t)).
  - destruct (decide (c = t)) as [->|Hne]; [destruct Hnot; by left|].
    rewrite IH; [done|]. intros Hin. apply Hnot. by right.
Qed.

(** The cached elements in precedence order, once [b] has its element. *)
Lemma omap_cache_insert (cache : gmap Name nat) (b : Bucket) (tag : nat) :
  cache !! Known b = None →
  omap (λ b', cache !! Known b') styleBucketOrdering
  = omap (λ b', cache !! Known b') (take (Z.to_nat (rank (Known b))) styleBucketOrdering)
    ++ omap (λ b', cache !! Known b')
            (drop (S (Z.to_nat (rank (Known b)))) styleBucketOrdering)
  ∧ omap (λ b', <[Known b := tag]> cache !! Known b') styleBucketOrdering
    = omap (λ b', cache !! Known b') (take (Z.to_nat (rank (Known b))) styleBucketOrdering)
      ++ tag :: omap (λ b', cache !! Known b')
                     (drop (S (Z.to_nat (rank (Known b)))) styleBucketOrdering).
Proof.
  intros Hnone.
  pose proof styleBucketOrdering_NoDup as Hnd.
  rewrite (styleBucketOrdering_split b) in Hnd.
  apply NoDup_app in Hnd as (_ & Hpre & Hnd). apply NoDup_cons in Hnd as [Hpost _].
  set (pre := take (Z.to_nat (rank (Known b))) styleBucketOrdering) in *.
  set (post := drop (S (Z.to_nat (rank (Known b)))) styleBucketOrdering) in *.
  rewrite (styleBucketOrdering_split b). fold pre post.
  rewrite !omap_app, !omap_cons.
  rewrite Hnone, lookup_insert_eq. split; [done|].
  rewrite (omap_ext_in (λ b', <[Known b:=tag]> cache !! Known b')
                       (λ b', cache !! Known b') pre).
  2:{ intros x Hx. apply lookup_insert_ne. intros [= <-]. apply (Hpre _ Hx). by left. }
  rewrite (omap_ext_in (λ b', <[Known b:=tag]> cache !! Known b')
                       (λ b', cache !! Known b') post).
  2:{ intros x Hx. apply lookup_insert_ne. by intros [= <-]. }
  done.
Qed.

(** ** The sheets of a key, and the keys met *)

Lemma sheets_of_snoc (k : Name) (done : list string) (css : string) :
  sheets_of k (done ++ [css])
  = sheets_of k done ++ (if decide (getStyleBucketName css = k) then [css] else []).
Proof.
  unfold sheets_of. rewrite filter_app.
  destruct (decide (getStyleBucketName css = k)) as [Hk|Hk].
  - by rewrite filter_cons_True by exact Hk.
  - by rewrite filter_cons_False by exact Hk.
Qed.

Lemma sheets_of_nil_iff (k : Name) (sheets : list string) :
  sheets_of k sheets = [] ↔ ∀ sheet, sheet ∈ sheets → getStyleBucketName sheet ≠ k.
Proof.
  unfold sheets_of. split.
  - intros Hnil sheet Hin Hk.
    assert (Hs : sheet ∈ filter (λ s, getStyleBucketName s = k) sheets)
      by (apply list_elem_of_filter; by split).
    rewrite Hnil in Hs. by apply elem_of_nil in Hs.
  - intros Hno. destruct (filter _ sheets) as [|s l] eqn:Hs; [done|].
    assert (Hs' : s ∈ filter (λ s, getStyleBucketName s = k) sheets)
      by (rewrite Hs; by left).
    apply list_elem_of_filter in Hs' as [Hk Hin]. by destruct (Hno s Hin).
Qed.

Lemma allocate_snoc (n : nat) (done : list string) (css : string) :
  allocate n (done ++ [css])
  = match allocate n done !! getStyleBucketName css with
    | Some _ => allocate n done
    | None => <[getStyleBucketName css := (n + size (allocate n done))%nat]>
                (allocate n done)
    end.
Proof. unfold allocate. by rewrite foldl_snoc. Qed.

Lemma inherited_of_snoc (done : list string) (css : string) :
  inherited_of (done ++ [css])
  = match getStyleBucketName css with
    | Known _ => inherited_of done
    | Inherited m => if decide (Inherited m ∈ inherited_of done) then inherited_of done
                     else inherited_of done ++ [Inherited m]
    end.
Proof. unfold inherited_of. by rewrite foldl_snoc. Qed.

(** The keys met are the inherited members that some sheet is classified
    under, each once. *)
Lemma inherited_of_spec (done : list string) :
  NoDup (inherited_of done) ∧
  ∀ k, k ∈ inherited_of done ↔ is_known k = false ∧ sheets_of k done ≠ [].
Proof.
  induction done as [|css done [IHnd IH]] using rev_ind.
  - split; [constructor|]. intros k. split; [by intros ?%elem_of_nil|by intros [_ ?]].
  - rewrite inherited_of_snoc.
    assert (Hsnoc : ∀ k, sheets_of k (done ++ [css]) ≠ []
                         ↔ sheets_of k done ≠ [] ∨ getStyleBucketName css = k).
    { intros k. rewrite sheets_of_snoc.
      destruct (decide (getStyleBucketName css = k)) as [Hk|Hk].
      - split; [by right|]. intros _ Happ. by apply app_eq_nil in Happ as [_ ?].
      - rewrite app_nil_r. tauto. }
    destruct (getStyleBucketName css) as [b|m] eqn:Hname.
    + split; [done|]. intros k. rewrite IH, Hsnoc.
      split; [tauto|]. intros [Hk [?|<-]]; [done|discriminate Hk].
    + destruct (decide (Inherited m ∈ inherited_of done)) as [Hin|Hnot].
      * split; [done|]. intros k. rewrite IH, Hsnoc.
        split; [tauto|]. intros [Hk [?|<-]]; [done|]. by apply IH.
      * split.
        -- apply NoDup_app. split; [done|]. split; [|apply NoDup_singleton].
           intros x Hx Hx'. apply list_elem_of_singleton in Hx' as ->. done.
        -- intros k. rewrite elem_of_app, list_elem_of_singleton, IH, Hsnoc.
           split; [intros [[? ?]| ->]; [tauto|split; [done|by right]]|].
           intros [Hk [?|<-]]; [by left|by right].
Qed.


Section WithHost.
Context `{Host}.

(** ** A new element on a head laid out by precedence *)

(** One of the nine buckets goes to its place among them. *)
Lemma lazyAdd_layout_known (b : Bucket) (opts : StyleSheetOpts) (rt : Runtime)
    (front : list nat) :
  NoDup (head (document rt)) →
  head (document rt)
  = front ++ omap (λ b', styleBucketsInHead rt !! Known b') styleBucketOrdering →
  styleBucketsInHead rt !! Known b = None →
  lazyAddStyleBucketToHead (Known b) opts rt
  = (inr (next_node (document rt)),
     mkRuntime
       (mkDocument
          (front ++ omap (λ b', <[Known b := next_node (document rt)]>
                                  (styleBucketsInHead rt) !! Known b')
                      styleBucketOrdering)
          (<[next_node (document rt)
             := mkStyle (nonce_attr opts) [""] (parse_text [""])]>
             (elements (document rt)))
          (S (next_node (document rt))))
       (<[Known b := next_node (document rt)]> (styleBucketsInHead rt)))
  ∧ length (front ++ omap (λ b', <[Known b := next_node (document rt)]>
                                   (styleBucketsInHead rt) !! Known b')
                       styleBucketOrdering)
    = S (length (head (document rt))).
Proof.
  intros Hnd Hhead Hnone. unfold lazyAddStyleBucketToHead. rewrite Hnone.
  fold (rank (Known b)). pose proof (rank_known b) as Hr.
  replace (Z.to_nat (rank (Known b) + 1)) with (S (Z.to_nat (rank (Known b)))) by lia.
  rewrite findNextBucket_first.
  destruct (omap_cache_insert (styleBucketsInHead rt) b (next_node (document rt)) Hnone)
    as [Hold Hnew].
  rewrite Hnew. rewrite Hold in Hhead.
  unfold createStyleTag, nonce_attr. split.
  - destruct (omap _ (drop _ _)) as [|t post] eqn:Hpost; simpl.
    + rewrite Hhead. by rewrite !app_nil_r, <- app_assoc.
    + rewrite Hhead, app_assoc. rewrite insert_before_middle.
      * simpl. by rewrite <- app_assoc.
      * rewrite Hhead, app_assoc in Hnd. apply NoDup_app in Hnd as (_ & Hdisj & _).
        intros Hin. apply (Hdisj t Hin). by left.
  - rewrite Hhead, !length_app. simpl. lia.
Qed.

(** An inherited member goes before the first of the nine buckets. *)
Lemma lazyAdd_layout_inherited (m : string) (opts : StyleSheetOpts) (rt : Runtime)
    (front : list nat) :
  NoDup (head (document rt)) →
  head (document rt)
  = front ++ omap (λ b', styleBucketsInHead rt !! Known b') styleBucketOrdering →
  styleBucketsInHead rt !! Inherited m = None →
  lazyAddStyleBucketToHead (Inherited m) opts rt
  = (inr (next_node (document rt)),
     mkRuntime
       (mkDocument
          ((front ++ [next_node (document rt)])
           ++ omap (λ b', styleBucketsInHead rt !! Known b') styleBucketOrdering)
          (<[next_node (document rt)
             := mkStyle (nonce_attr opts) [""] (parse_text [""])]>
             (elements (document rt)))
          (S (next_node (document rt))))
       (<[Inherited m := next_node (document rt)]> (styleBucketsInHead rt))).
Proof.
  intros Hnd Hhead Hnone. unfold lazyAddStyleBucketToHead. rewrite Hnone.
  change (Z.to_nat (array_indexOf styleBucketOrdering (Inherited m) + 1)) with 0%nat.
  rewrite drop_0, findNextBucket_first.
  unfold createStyleTag, nonce_attr.
  destruct (omap _ styleBucketOrdering) as [|t post] eqn:Hpost; simpl.
  - rewrite Hhead. by rewrite !app_nil_r.
  - rewrite Hhead. rewrite insert_before_middle.
    + simpl. by rewrite <- app_assoc.
    + rewrite Hhead in Hnd. apply NoDup_app in Hnd as (_ & Hdisj & _).
      intros Hin. apply (Hdisj t Hin). by left.
Qed.

Lemma append_rule_bucket_element (production : bool) (opts : StyleSheetOpts)
    (css : string) (l : list string) :
  snd (append_rule production css (bucket_element production opts l))
  = bucket_element production opts (l ++ [css]).
Proof.
  destruct production; simpl; [|done].
  unfold append_rule, bucket_element, insert_all. simpl. rewrite foldl_snoc.
  by destruct (insertRule_check _ _ _).
Qed.

Lemma bucket_element_nil (production : bool) (opts : StyleSheetOpts) :
  bucket_element production opts []
  = mkStyle (nonce_attr opts) [""] (parse_text [""]).
Proof. by destruct production. Qed.

Lemma initial_layout (production : bool) (opts : StyleSheetOpts) (n : nat) :
  layout production opts n [] (initial n).
Proof.
  split.
  - apply initial_consistent.
  - change (seq 0 n = seq 0 n ++ [] ++ omap (λ b, (∅ : gmap Name nat) !! Known b)
                                          styleBucketOrdering).
    rewrite (omap_ext_in _ (λ _, None)).
    + by rewrite app_nil_r.
    + intros b _. apply lookup_empty.
  - reflexivity.
  - change (n = (n + size (∅ : gmap Name nat))%nat).
    rewrite map_size_empty. lia.
  - change (length (seq 0 n) = (n + size (∅ : gmap Name nat))%nat).
    rewrite map_size_empty, length_seq. lia.
  - intros k. split; [done|]. intros _. apply lookup_empty.
  - intros k tag Hk.
    change ((∅ : gmap Name nat) !! k = Some tag) in Hk.
    by rewrite lookup_empty in Hk.
Qed.

(** ** One call keeps the layout *)

Lemma createStyleSheet_layout (production : bool) (opts : StyleSheetOpts)
    (n : nat) (done : list string) (css : string) (rt : Runtime) :
  layout production opts n done rt →
  layout production opts n (done ++ [css])
         (snd (createStyleSheet production opts css rt)).
Proof.
  intros [Hc Hhead Hcache Hnext Hlen Habs Hel].
  destruct (createStyleSheet_step production opts css rt Hc)
    as (tag & el & rt1 & Hadd & Hc1 & Hb1 & Hin1 & Hel1 & Hstep).
  rewrite Hstep. simpl snd. clear Hstep.
  remember (getStyleBucketName css) as k eqn:Ek0 in *.
  assert (Hinh : ∀ k', k' ∈ inherited_of done → is_known k' = false
                       ∧ styleBucketsInHead rt !! k' ≠ None).
  { intros k' [Hk' Hne]%inherited_of_spec. split; [done|]. by rewrite Habs. }
  destruct (styleBucketsInHead rt !! k) as [tag0|] eqn:Hk.
  - (* the key has its element *)
    rewrite (lazyAdd_cached _ _ _ _ Hk) in Hadd. injection Hadd as <- <-.
    rewrite (Hel _ _ Hk) in Hel1. injection Hel1 as <-.
    assert (Hsame : inherited_of (done ++ [css]) = inherited_of done).
    { rewrite inherited_of_snoc. rewrite <- ?Ek0. destruct k as [b|m]; [done|].
      rewrite decide_True; [done|]. apply inherited_of_spec. split; [done|].
      rewrite <- Habs. by rewrite Hk. }
    split.
    + by apply consistent_set_element.
    + simpl. by rewrite Hsame.
    + simpl. rewrite allocate_snoc. rewrite <- ?Ek0. by rewrite <- Hcache, Hk.
    + exact Hnext.
    + exact Hlen.
    + intros k'. simpl. rewrite sheets_of_snoc. rewrite <- ?Ek0.
      destruct (decide (k = k')) as [<-|Hne].
      * rewrite Hk. split; [done|]. intros Happ.
        by apply app_eq_nil in Happ as [_ ?].
      * rewrite app_nil_r. apply Habs.
    + intros k' tag' Hk'. simpl in *. rewrite sheets_of_snoc. rewrite <- ?Ek0.
      destruct (decide (k = k')) as [<-|Hne].
      * rewrite Hk in Hk'. injection Hk' as <-.
        rewrite lookup_insert_eq. by rewrite append_rule_bucket_element.
      * rewrite app_nil_r, lookup_insert_ne; [by apply Hel|].
        intros <-. apply Hne. by apply (cons_inj _ Hc k k' tag0).
  - (* the key gets its element now *)
    assert (Hold : ∀ k' t, styleBucketsInHead rt !! k' = Some t →
                           t ≠ next_node (document rt)).
    { intros k' t Hk' ->. apply (cons_live _ Hc) in Hk' as [Hin _].
      apply (cons_fresh _ Hc) in Hin. lia. }
    assert (Hnil : sheets_of k done = []) by (by apply Habs).
    assert (Hrt1 : ∃ children,
               rt1 = mkRuntime
                       (mkDocument children
                          (<[next_node (document rt)
                             := mkStyle (nonce_attr opts) [""] (parse_text [""])]>
                             (elements (document rt)))
                          (S (next_node (document rt))))
                       (<[k := next_node (document rt)]> (styleBucketsInHead rt))
               ∧ tag = next_node (document rt)
               ∧ children
                 = seq 0 n
                   ++ omap (λ k', <[k := next_node (document rt)]>
                                    (styleBucketsInHead rt) !! k')
                           (inherited_of (done ++ [css]))
                   ++ omap (λ b, <[k := next_node (document rt)]>
                                   (styleBucketsInHead rt) !! Known b)
                           styleBucketOrdering
               ∧ length children = S (length (head (document rt)))).
    { rewrite inherited_of_snoc. rewrite <- ?Ek0.
      rewrite app_assoc in Hhead.
      destruct k as [b|m].
      - destruct (lazyAdd_layout_known b opts rt _ (cons_nodup _ Hc) Hhead Hk)
          as [Hadd' Hlen'].
        rewrite Hadd' in Hadd. injection Hadd as <- <-.
        eexists. split; [reflexivity|]. split; [done|]. split; [|exact Hlen'].
        rewrite <- app_assoc. do 2 f_equal.
        apply omap_ext_in. intros k' Hk'. symmetry. apply lookup_insert_ne.
        intros <-. by destruct (Hinh _ Hk').
      - rewrite (lazyAdd_layout_inherited m opts rt _ (cons_nodup _ Hc) Hhead Hk) in Hadd.
        injection Hadd as <- <-.
        assert (Hnot : Inherited m ∉ inherited_of done).
        { intros Hin. destruct (Hinh _ Hin) as [_ Hne]. by apply Hne. }
        rewrite decide_False by exact Hnot.
        eexists. split; [reflexivity|]. split; [done|]. split.
        + rewrite omap_app, omap_cons, lookup_insert_eq.
          rewrite (omap_ext_in
                     (λ k', <[Inherited m := next_node (document rt)]>
                              (styleBucketsInHead rt) !! k')
                     (λ k', styleBucketsInHead rt !! k') (inherited_of done)).
          2:{ intros k' Hk'. apply lookup_insert_ne. by intros <-. }
          rewrite (omap_ext_in
                     (λ b, <[Inherited m := next_node (document rt)]>
                             (styleBucketsInHead rt) !! Known b)
                     (λ b, styleBucketsInHead rt !! Known b) styleBucketOrdering).
          2:{ intros b _. by apply lookup_insert_ne. }
          change (omap (λ k', styleBucketsInHead rt !! k') []) with (@nil nat).
          by rewrite <- !app_assoc.
        + rewrite Hhead, !length_app. simpl. lia. }
    destruct Hrt1 as (children & -> & -> & Hchildren & Hlen').
    simpl in Hel1. rewrite lookup_insert_eq in Hel1. injection Hel1 as <-.
    split.
    + by apply consistent_set_element.
    + exact Hchildren.
    + simpl. rewrite allocate_snoc. rewrite <- ?Ek0.
      by rewrite <- Hcache, Hk, Hnext.
    + simpl. rewrite map_size_insert_None by done. rewrite Hnext. lia.
    + simpl. rewrite map_size_insert_None by done. rewrite Hlen', Hlen. lia.
    + intros k'. simpl. rewrite sheets_of_snoc. rewrite <- ?Ek0.
      destruct (decide (k = k')) as [<-|Hne].
      * rewrite lookup_insert_eq. split; [done|]. intros Happ.
        by apply app_eq_nil in Happ as [_ ?].
      * rewrite lookup_insert_ne by done. rewrite app_nil_r. apply Habs.
    + intros k' tag' Hk'. simpl in *. rewrite sheets_of_snoc. rewrite <- ?Ek0.
      destruct (decide (k = k')) as [<-|Hne].
      * rewrite lookup_insert_eq in Hk'. injection Hk' as <-.
        rewrite lookup_insert_eq, Hnil.
        rewrite <- (bucket_element_nil production opts).
        by rewrite append_rule_bucket_element.
      * rewrite lookup_insert_ne in Hk' by done.
        rewrite app_nil_r.
        rewrite !lookup_insert_ne; [by apply Hel| |];
          intros <-; by apply (Hold k' _ Hk').
Qed.

(** Any sequence of calls keeps the layout. *)
Lemma applySheets_layout (production : bool) (opts : StyleSheetOpts)
    (n : nat) (done sheets : list string) (rt : Runtime) :
  layout production opts n done rt →
  layout production opts n (done ++ sheets)
         (snd (applySheets production opts sheets rt)).
Proof.
  revert done rt. induction sheets as [|css sheets IH]; intros done rt Hl.
  - by rewrite app_nil_r.
  - rewrite applySheets_cons. simpl snd.
    replace (done ++ css :: sheets) with ((done ++ [css]) ++ sheets)
      by (by rewrite <- app_assoc).
    by apply IH, createStyleSheet_layout.
Qed.

Lemma after_layout (production : bool) (opts : StyleSheetOpts)
    (n : nat) (sheets : list string) :
  layout production opts n sheets (after production opts n sheets).
Proof.
  apply (applySheets_layout production opts n [] sheets (initial n)),
        initial_layout.
Qed.

(** ** The head and the buckets after a sequence of calls *)

(** X3. After any sequence of calls on a page whose head held [n] nodes,
    the head is those [n] nodes, untouched and in front, then the elements
    of the inherited members that sheets were classified under, in the
    order in which they first came, then the elements of the cached
    buckets in the order of [styleBucketOrdering]. *)
Theorem applySheets_head (production : bool) (opts : StyleSheetOpts)
    (n : nat) (sheets : list string) :
  head (document (after production opts n sheets))
  = seq 0 n
    ++ omap (λ k, styleBucketsInHead (after production opts n sheets) !! k)
            (inherited_of sheets)
    ++ omap (λ b, styleBucketsInHead (after production opts n sheets) !! Known b)
            styleBucketOrdering
  ∧ NoDup (inherited_of sheets)
  ∧ ∀ k, k ∈ inherited_of sheets
         ↔ is_known k = false ∧ ∃ sheet, sheet ∈ sheets ∧ getStyleBucketName sheet = k.
Proof.
  split; [apply (lay_head _ _ _ _ _ (after_layout production opts n sheets))|].
  split; [apply inherited_of_spec|].
  intros k. rewrite (proj2 (inherited_of_spec sheets) k).
  split; intros [Hk Hs]; (split; [done|]).
  - destruct (sheets_of k sheets) as [|s l] eqn:Hl; [done|].
    assert (Hin : s ∈ sheets_of k sheets) by (rewrite Hl; by left).
    apply list_elem_of_filter in Hin as [Hname Hin]. by exists s.
  - destruct Hs as (s & Hin & Hname). rewrite sheets_of_nil_iff.
    intros Hno. by apply (Hno s Hin).
Qed.


(** X5. After a sequence of calls, a key is cached exactly when some
    sheet of the sequence is classified under it, and its element then
    depends on the sheets of that key alone, in call order and as often as
    they were applied: outside production they are its text nodes, after
    the empty one, and its rules are what the host reads from these; in
    production it has the one empty text node, and its rules are those
    the host has taken of them, one [insertRule] after the other. *)
Theorem applySheets_bucket_content (production : bool) (opts : StyleSheetOpts)
    (n : nat) (sheets : list string) (k : Name) :
  (styleBucketsInHead (after production opts n sheets) !! k = None ↔
   ∀ sheet, sheet ∈ sheets → getStyleBucketName sheet ≠ k) ∧
  (∀ tag, styleBucketsInHead (after production opts n sheets) !! k = Some tag →
     ∃ el, elements (document (after production opts n sheets)) !! tag = Some el ∧
       nonce el = nonce_attr opts ∧
       if production
       then childNodes el = [""] ∧
            cssRules el
            = insert_all (parse_text [""])
                (filter (λ sheet, getStyleBucketName sheet = k) sheets)
       else childNodes el
            = "" :: filter (λ sheet, getStyleBucketName sheet = k) sheets ∧
            cssRules el
            = parse_text ("" :: filter (λ sheet, getStyleBucketName sheet = k) sheets)).
Proof.
  pose proof (after_layout production opts n sheets) as Hl. split.
  - rewrite (lay_absent _ _ _ _ _ Hl). apply sheets_of_nil_iff.
  - intros tag Hk. eexists. split; [apply (lay_element _ _ _ _ _ Hl _ _ Hk)|].
    by destruct production.
Qed.

(** X7. The arrival order does not decide which elements there are: two
    sequences with the same sheets in any order leave the same keys cached
    and as many nodes in the head; outside production each key's element
    has the same text nodes up to their order. *)
Theorem applySheets_arrival_order (production : bool) (opts : StyleSheetOpts)
    (n : nat) (sheets1 sheets2 : list string) :
  sheets1 ≡ₚ sheets2 →
  length (head (document (after production opts n sheets1)))
  = length (head (document (after production opts n sheets2))) ∧
  ∀ k, (is_Some (styleBucketsInHead (after production opts n sheets1) !! k) ↔
        is_Some (styleBucketsInHead (after production opts n sheets2) !! k)) ∧
       ∀ el1 el2,
         element_of k (after false opts n sheets1) = Some el1 →
         element_of k (after false opts n sheets2) = Some el2 →
         childNodes el1 ≡ₚ childNodes el2.
Proof.
  intros Hperm.
  pose proof (after_layout production opts n sheets1) as Hl1.
  pose proof (after_layout production opts n sheets2) as Hl2.
  assert (Hof : ∀ k, sheets_of k sheets1 ≡ₚ sheets_of k sheets2).
  { intros k. unfold sheets_of. by rewrite Hperm. }
  assert (Hsome : ∀ k,
             is_Some (styleBucketsInHead (after production opts n sheets1) !! k) ↔
             is_Some (styleBucketsInHead (after production opts n sheets2) !! k)).
  { intros k. rewrite <- !not_eq_None_Some.
    rewrite (lay_absent _ _ _ _ _ Hl1), (lay_absent _ _ _ _ _ Hl2).
    split; intros Hne Hnil; apply Hne.
    - apply Permutation_nil_r. by rewrite (Hof k), Hnil.
    - apply Permutation_nil_r. by rewrite <- (Hof k), Hnil. }
  split.
  - rewrite (lay_length _ _ _ _ _ Hl1), (lay_length _ _ _ _ _ Hl2). f_equal.
    rewrite <- !(size_dom (D := gset Name)). f_equal.
    apply set_eq. intros k. rewrite !elem_of_dom. apply Hsome.
  - intros k. split; [apply Hsome|]. intros el1 el2 H1 H2.
    unfold element_of in H1, H2.
    destruct (styleBucketsInHead (after false opts n sheets1) !! k) as [t1|] eqn:Hk1;
      [|done].
    destruct (styleBucketsInHead (after false opts n sheets2) !! k) as [t2|] eqn:Hk2;
      [|done].
    rewrite (lay_element _ _ _ _ _ (after_layout false opts n sheets1) _ _ Hk1) in H1.
    rewrite (lay_element _ _ _ _ _ (after_layout false opts n sheets2) _ _ Hk2) in H2.
    injection H1 as <-. injection H2 as <-. simpl. by rewrite (Hof k).
Qed.

(** X8. Every bucket element carries the [nonce] of the options as its
    attribute, and none when the options have no nonce or an empty one. *)
Theorem applySheets_nonce (production : bool) (opts : StyleSheetOpts)
    (n : nat) (sheets : list string) :
  ∀ k tag el,
    styleBucketsInHead (after production opts n sheets) !! k = Some tag →
    elements (document (after production opts n sheets)) !! tag = Some el →
    nonce el = match opt_nonce opts with
               | Some nonce => if decide (nonce = "") then None else Some nonce
               | None => None
               end.
Proof.
  intros k tag el Hk Hel.
  rewrite (lay_element _ _ _ _ _ (after_layout production opts n sheets) _ _ Hk) in Hel.
  injection Hel as <-. by destruct production.
Qed.


(** ** What one call changes *)

(** X12. A call leaves the other keys alone, whether it returns or
    raises: for every key other than the sheet's own, the cache entry and
    the element are after the call what they were before it. *)
Theorem applySheet_other_buckets (production : bool) (opts : StyleSheetOpts)
    (n : nat) (sheets : list string) (css : string) (rt : Runtime) (k : Name) :
  rt = after production opts n sheets →
  k ≠ getStyleBucketName css →
  styleBucketsInHead (snd (createStyleSheet production opts css rt)) !! k
  = styleBucketsInHead rt !! k ∧
  element_of k (snd (createStyleSheet production opts css rt)) = element_of k rt.
Proof.
  intros -> Hne.
  pose proof (after_layout production opts n sheets) as Hl.
  pose proof (createStyleSheet_layout production opts n sheets css _ Hl) as Hl'.
  set (rt := after production opts n sheets) in *.
  set (rt' := snd (createStyleSheet production opts css rt)) in *.
  assert (Hcache : styleBucketsInHead rt' !! k = styleBucketsInHead rt !! k).
  { rewrite (lay_cache _ _ _ _ _ Hl'), allocate_snoc, <- (lay_cache _ _ _ _ _ Hl).
    destruct (styleBucketsInHead rt !! getStyleBucketName css); [done|].
    by rewrite lookup_insert_ne. }
  split; [done|]. unfold element_of. rewrite Hcache.
  destruct (styleBucketsInHead rt !! k) as [tag|] eqn:Hk; [|done].
  assert (Hk0 : styleBucketsInHead rt !! k = Some tag) by congruence.
  rewrite (lay_element _ _ _ _ _ Hl _ _ Hk0).
  rewrite (lay_element _ _ _ _ _ Hl' _ _ Hcache).
  rewrite sheets_of_snoc. destruct (decide _) as [Heq|_]; [by destruct Hne|].
  by rewrite app_nil_r.
Qed.

(** X13. A call for a key that has its element adds no element: the
    head, the cache and the other elements stay as they are; the key's own
    element gets the text as the mode and the host have it, and the call
    returns or raises accordingly. *)
Theorem applySheet_cached_bucket (production : bool) (opts : StyleSheetOpts)
    (n : nat) (sheets : list string) (css : string) (rt : Runtime) (tag : nat) :
  rt = after production opts n sheets →
  styleBucketsInHead rt !! getStyleBucketName css = Some tag →
  ∃ el,
    elements (document rt) !! tag = Some el ∧
    createStyleSheet production opts css rt
    = (fst (append_rule production css el),
       mkRuntime
         (mkDocument (head (document rt))
            (<[tag := snd (append_rule production css el)]> (elements (document rt)))
            (next_node (document rt)))
         (styleBucketsInHead rt)).
Proof.
  intros -> Hk.
  pose proof (after_consistent production opts n sheets) as Hc.
  destruct (createStyleSheet_step production opts css _ Hc)
    as (tag' & el & rt1 & Hadd & _ & _ & _ & Hel & Hstep).
  rewrite (lazyAdd_cached _ _ _ _ Hk) in Hadd. injection Hadd as <- <-.
  exists el. split; [done|]. exact Hstep.
Qed.

End WithHost.

(** ** [groupSheetsByBucket] *)

Lemma groupSheetsByBucket_snoc (sheets : list string) (sheet : string) :
  groupSheetsByBucket (sheets ++ [sheet])
  = <[getStyleBucketName sheet :=
        default [] (groupSheetsByBucket sheets !! getStyleBucketName sheet) ++ [sheet]]>
      (groupSheetsByBucket sheets).
Proof. unfold groupSheetsByBucket. by rewrite foldl_snoc. Qed.

Lemma groupSheetsByBucket_get (sheets : list string) (k : Name) :
  groupSheetsByBucket sheets !! k
  = match sheets_of k sheets with
    | [] => None
    | s :: l => Some (s :: l)
    end.
Proof.
  induction sheets as [|sheet sheets IH] using rev_ind.
  - apply lookup_empty.
  - rewrite groupSheetsByBucket_snoc, sheets_of_snoc.
    destruct (decide (getStyleBucketName sheet = k)) as [->|Hne].
    + rewrite lookup_insert_eq, IH.
      by destruct (sheets_of k sheets).
    + rewrite lookup_insert_ne by done. by rewrite app_nil_r.
Qed.

Lemma groupSheetsByBucket_default (sheets : list string) (k : Name) :
  default [] (groupSheetsByBucket sheets !! k) = sheets_of k sheets.
Proof. rewrite groupSheetsByBucket_get. by destruct (sheets_of k sheets). Qed.

(** X1. A key is in the grouping exactly when some sheet of the input is
    classified under it, and its array then holds the sheets of that key,
    all of them, in the order of the input; no array is empty. *)
Theorem groupSheetsByBucket_groups (sheets : list string) (k : Name) :
  (groupSheetsByBucket sheets !! k = None ↔
   ∀ sheet, sheet ∈ sheets → getStyleBucketName sheet ≠ k) ∧
  (∀ l, groupSheetsByBucket sheets !! k = Some l →
        l = filter (λ sheet, getStyleBucketName sheet = k) sheets ∧ l ≠ []).
Proof.
  rewrite groupSheetsByBucket_get, <- sheets_of_nil_iff.
  fold (sheets_of k sheets). split.
  - by destruct (sheets_of k sheets).
  - intros l. destruct (sheets_of k sheets) as [|s l']; [done|].
    by intros [= <-].
Qed.

Lemma filter_disjoint_app {A : Type} (P Q : A → Prop)
    `{∀ x, Decision (P x)} `{∀ x, Decision (Q x)} (l : list A) :
  (∀ x, P x → Q x → False) →
  filter P l ++ filter Q l ≡ₚ filter (λ x, P x ∨ Q x) l.
Proof.
  intros Hdisj. induction l as [|a l IH]; [done|].
  destruct (decide (P a)) as [Hp|Hp]; destruct (decide (Q a)) as [Hq|Hq].
  - by destruct (Hdisj a).
  - rewrite (filter_cons_True P) by done. rewrite (filter_cons_False Q) by done.
    rewrite (filter_cons_True (λ x, P x ∨ Q x)) by (by left).
    simpl. by rewrite IH.
  - rewrite (filter_cons_False P) by done. rewrite (filter_cons_True Q) by done.
    rewrite (filter_cons_True (λ x, P x ∨ Q x)) by (by right).
    rewrite <- Permutation_middle. by rewrite IH.
  - rewrite (filter_cons_False P) by done. rewrite (filter_cons_False Q) by done.
    rewrite (filter_cons_False (λ x, P x ∨ Q x)) by tauto.
    exact IH.
Qed.

Lemma flat_map_sheets_of (bs : list Bucket) (sheets : list string) :
  NoDup bs →
  flat_map (λ b, sheets_of (Known b) sheets) bs
  ≡ₚ filter (λ sheet, known_in bs (getStyleBucketName sheet) = true) sheets.
Proof.
  induction 1 as [|b bs Hnot Hnd IH]; simpl.
  - induction sheets as [|s sheets IHs]; [done|].
    rewrite filter_cons_False; [done|].
    destruct (getStyleBucketName s) as [b|m]; [|done].
    unfold known_in. rewrite bool_decide_eq_true. apply not_elem_of_nil.
  - rewrite IH. unfold sheets_of. rewrite filter_disjoint_app.
    + erewrite list_filter_iff; [done|].
      intros x. cbv beta. destruct (getStyleBucketName x) as [b'|m]; unfold known_in.
      * rewrite !bool_decide_eq_true, elem_of_cons.
        split; [intros [[= ->]|?]; tauto|intros [->|?]; tauto].
      * split; [intros [?|?]; done|done].
    + intros x Hx. rewrite Hx. unfold known_in. rewrite bool_decide_eq_true. done.
Qed.

(** The arrays of the grouping, over all its keys, hold the input. *)
Lemma groupSheetsByBucket_all (sheets : list string) :
  flat_map snd (map_to_list (groupSheetsByBucket sheets)) ≡ₚ sheets.
Proof.
  induction sheets as [|sheet sheets IH] using rev_ind.
  - unfold groupSheetsByBucket. simpl. by rewrite map_to_list_empty.
  - rewrite groupSheetsByBucket_snoc.
    set (k := getStyleBucketName sheet). set (g := groupSheetsByBucket sheets) in *.
    destruct (g !! k) as [l|] eqn:Hk; simpl.
    + rewrite <- insert_delete_eq.
      rewrite (map_to_list_insert (delete k g) k (l ++ [sheet]) (lookup_delete_eq g k)).
      rewrite <- IH, <- (map_to_list_delete g k l Hk).
      simpl. rewrite <- !app_assoc. apply Permutation_app_head.
      apply Permutation_app_comm.
    + rewrite (map_to_list_insert g k [sheet] Hk).
      simpl. rewrite IH. apply Permutation_cons_append.
Qed.

(** X2. Grouping loses and repeats nothing: the arrays of the grouping,
    over all its keys, hold the sheets of the input, each as often as the
    input has it; the arrays of the nine buckets, read in the order of
    [styleBucketOrdering], hold those of them that are classified into one
    of the nine. *)
Theorem groupSheetsByBucket_partition (sheets : list string) :
  flat_map snd (map_to_list (groupSheetsByBucket sheets)) ≡ₚ sheets ∧
  flat_map (λ b, default [] (groupSheetsByBucket sheets !! Known b)) styleBucketOrdering
  ≡ₚ filter (λ sheet, is_known (getStyleBucketName sheet) = true) sheets.
Proof.
  split; [apply groupSheetsByBucket_all|].
  erewrite flat_map_ext; [|intros b; apply groupSheetsByBucket_default].
  rewrite (flat_map_sheets_of _ _ styleBucketOrdering_NoDup).
  erewrite list_filter_iff; [done|].
  intros x. cbv beta. destruct (getStyleBucketName x) as [b|m]; [|done].
  unfold known_in, is_known. rewrite bool_decide_eq_true.
  split; [done|]. intros _. apply styleBucketOrdering_all.
Qed.

(** X6. The runtime and [groupSheetsByBucket] agree: after the calls, the
    cached keys are the keys of the grouping of the same sheets, and each
    key's element is the one that has received the array that the grouping
    gives the key. *)
Theorem applySheets_groupSheetsByBucket `{Host} (production : bool)
    (opts : StyleSheetOpts) (n : nat) (sheets : list string) (k : Name) :
  match groupSheetsByBucket sheets !! k with
  | None => styleBucketsInHead (after production opts n sheets) !! k = None
  | Some l =>
      ∃ tag, styleBucketsInHead (after production opts n sheets) !! k = Some tag ∧
             elements (document (after production opts n sheets)) !! tag
             = Some (bucket_element production opts l)
  end.
Proof.
  pose proof (after_layout production opts n sheets) as Hl.
  rewrite groupSheetsByBucket_get.
  destruct (sheets_of k sheets) as [|s l] eqn:Hs.
  - by apply (lay_absent _ _ _ _ _ Hl).
  - destruct (styleBucketsInHead (after production opts n sheets) !! k) as [tag|] eqn:Hk.
    + exists tag. split; [done|]. rewrite <- Hs.
      apply (lay_element _ _ _ _ _ Hl _ _ Hk).
    + apply (lay_absent _ _ _ _ _ Hl) in Hk. congruence.
Qed.

(** ** More on the classification *)

(** X10. A sheet goes to the at-rule bucket exactly when its first
    character is [@]: no pseudo suffix leads there. *)
Theorem getStyleBucketName_at_rule (sheet : string) :
  getStyleBucketName sheet = Known BAtRule ↔ charCodeAt sheet 0 = Some 64%nat.
Proof.
  unfold getStyleBucketName. destruct (decide _) as [H0|H0]; [done|].
  split; [|done]. destruct (decide _) as [H10|H10]; [|done].
  cbv zeta. unfold pseudosMap_get.
  destruct (pseudosMap !! _) as [b|] eqn:E.
  - simpl. intros [= ->]. apply pseudosMap_lookup in E. revert E.
    unfold pseudosTable. rewrite !elem_of_cons, elem_of_nil. intuition congruence.
  - by destruct (decide _).
Qed.

Lemma get_beyond (s : string) (i : nat) :
  (String.length s ≤ i)%nat → String.get i s = None.
Proof.
  revert i. induction s as [|c s IH]; intros i Hi; [done|].
  destruct i as [|i]; simpl in *; [lia|]. apply IH. lia.
Qed.

(** X11. A sheet of at most ten characters that does not begin with [@],
    the empty string among them, goes to the catch-all bucket: there is no
    eleventh character to look at. *)
Theorem getStyleBucketName_short (sheet : string) :
  (String.length sheet ≤ 10)%nat →
  charCodeAt sheet 0 ≠ Some 64%nat →
  getStyleBucketName sheet = Known BCatchAll.
Proof.
  intros Hlen H0. unfold getStyleBucketName.
  destruct (decide _) as [?|_]; [done|].
  destruct (decide _) as [H10|_]; [|done].
  unfold charCodeAt in H10. by rewrite get_beyond in H10.
Qed.

(** ** Evaluations on the sample host *)

Lemma getStyleBucketName_short_witness :
  getStyleBucketName "" = Known BCatchAll
  ∧ getStyleBucketName "._a:hover{" = Known BCatchAll.
Proof.
  split.
  - apply getStyleBucketName_short; [simpl; lia | vm_compute; discriminate].
  - apply getStyleBucketName_short; [simpl; lia | vm_compute; discriminate].
Defined.

Lemma getStyleBucketName_long_witness :
  getStyleBucketName "._a1234567:focus-visible{outline:none}" = Known BFocusVisible.
Proof.
  apply (getStyleBucketName_long "._a1234567" "focus-visible" "outline:none}").
  - apply (bool_decide_unpack _). vm_compute. exact I.
  - reflexivity.
  - vm_compute. discriminate.
  - reflexivity.
Defined.


Lemma applySheets_arrival_order_witness :
  length (head (document
    (after (H := sample_host) true (mkOpts None) 1
       ["._aaaa1111:hover{color:red}"; "._bbbb2222{color:blue}"])))
  = length (head (document
      (after (H := sample_host) true (mkOpts None) 1
         ["._bbbb2222{color:blue}"; "._aaaa1111:hover{color:red}"]))).
Proof.
  apply (applySheets_arrival_order (H := sample_host) true (mkOpts None) 1
           ["._aaaa1111:hover{color:red}"; "._bbbb2222{color:blue}"]
           ["._bbbb2222{color:blue}"; "._aaaa1111:hover{color:red}"]).
  apply Permutation_swap.
Defined.

(** A sheet for another bucket leaves the hover bucket as it is, also when
    the host refuses the sheet. *)
Lemma applySheet_other_buckets_witness :
  element_of (Known BHover)
    (snd (createStyleSheet (H := sample_host) true (mkOpts None) "not a rule"
            (after (H := sample_host) true (mkOpts None) 0
               ["._aaaa1111:hover{color:red}"])))
  = Some (mkStyle None [""] ["._aaaa1111:hover{color:red}"]).
Proof.
  rewrite (proj2 (applySheet_other_buckets (H := sample_host) true (mkOpts None) 0
                    ["._aaaa1111:hover{color:red}"] "not a rule"
                    (after (H := sample_host) true (mkOpts None) 0
                       ["._aaaa1111:hover{color:red}"])
                    (Known BHover) eq_refl ltac:(vm_compute; discriminate))).
  reflexivity.
Defined.

Lemma applySheet_cached_bucket_witness :
  head (document
    (snd (createStyleSheet (H := sample_host) false (mkOpts None)
            "._cccc3333:hover{color:green}"
            (after (H := sample_host) false (mkOpts None) 2
               ["._aaaa1111:hover{color:red}"]))))
  = [0; 1; 2]%nat.
Proof.
  destruct (applySheet_cached_bucket (H := sample_host) false (mkOpts None) 2
              ["._aaaa1111:hover{color:red}"] "._cccc3333:hover{color:green}"
              (after (H := sample_host) false (mkOpts None) 2
                 ["._aaaa1111:hover{color:red}"]) 2%nat eq_refl)
    as (el & Hel & Hstep).
  - reflexivity.
  - rewrite Hstep. reflexivity.
Defined.

Lemma applySheets_nonce_witness :
  ∃ el,
    elements (document
      (after (H := sample_host) false (mkOpts (Some "r4nd0m")) 0
         ["._aaaa1111:hover{color:red}"])) !! 0%nat = Some el
    ∧ nonce el = Some "r4nd0m".
Proof.
  eexists. split; [vm_compute; reflexivity|].
  exact (applySheets_nonce (H := sample_host) false (mkOpts (Some "r4nd0m")) 0
           ["._aaaa1111:hover{color:red}"] (Known BHover) 0%nat _ eq_refl eq_refl).
Defined.

End SheetLayoutFacts.
(** * More on the global grouping *)
Module TransformMoreFacts.
Import JsStringFacts Transform TransformFacts.

Section Pipeline.
Context {U : Utils}.

Lemma scoped_is_rule (h : string) (top : list Node) :
  Forall (λ n, is_rule n = true) (omap (scoped h) top)
  ∧ length (omap (scoped h) top) = length (filter (λ n, is_rule n = true) top).
Proof.
  induction top as [|n top [IH1 IH2]]; [by split|].
  rewrite omap_scoped_cons.
  destruct n as [prop value imp|sel ch|name params ch|text].
  - by rewrite filter_cons_False by done.
  - rewrite filter_cons_True by done. simpl. split; [by constructor|by rewrite IH2].
  - by rewrite filter_cons_False by done.
  - by rewrite filter_cons_False by done.
Qed.

(** X14. The global grouping puts out rules only: top-level at-rules and
    comments of the input do not survive it, and the output has as many
    nodes as the input has top-level rules, plus the wrapper when there is
    a bare declaration. *)
Theorem groupGlobalRules_only_rules (css : string) (top : list Node) :
  Forall (λ n, is_rule n = true) (snd (groupGlobalRules_nodes css top))
  ∧ length (snd (groupGlobalRules_nodes css top))
    = (length (filter (λ n, is_rule n = true) top)
       + if decide (filter (λ n, is_decl n = true) top = []) then 0 else 1)%nat.
Proof.
  rewrite groupGlobalRules_nodes_eq. simpl.
  destruct (scoped_is_rule (hash css) top) as [Hall Hlen]. split.
  - apply Forall_app. split; [|done].
    unfold wrapper.
    destruct (filter (λ n, is_decl n = true) top);
      [apply Forall_nil_2 | by apply Forall_singleton].
  - rewrite length_app, Hlen. unfold wrapper.
    destruct (filter (λ n, is_decl n = true) top); simpl; lia.
Qed.

(** X15. With neither a bare declaration nor a rule at the top level (an
    empty input, or only comments and at-rules), the global grouping
    leaves an empty root and still reports the class name [.{hash}]. *)
Theorem groupGlobalRules_nothing_to_group (css : string) (top : list Node) (out : Out) :
  Forall (λ n, is_decl n = false ∧ is_rule n = false) top →
  groupGlobalRules push_className (mkRoot css top) out
  = inr (mkRoot css [],
         mkOut (out_sheets out) (out_classNames out ++ ["." +:+ hash css])).
Proof.
  intros Hall. unfold groupGlobalRules. simpl.
  rewrite groupGlobalRules_nodes_eq.
  assert (Hw : filter (λ n, is_decl n = true) top = []
               ∧ omap (scoped (hash css)) top = []).
  { induction Hall as [|n top [Hd Hr] _ [IH1 IH2]]; [done|].
    rewrite filter_cons_False by (by rewrite Hd).
    rewrite omap_scoped_cons. split; [exact IH1|].
    destruct n; try done. }
  destruct Hw as [Hw ->]. unfold wrapper. by rewrite Hw.
Qed.

End Pipeline.

Lemma groupGlobalRules_nothing_to_group_witness :
  @groupGlobalRules sample_utils push_className
    (mkRoot "/* a */@media print{.x{color:red}}"
       [Comment " a "; AtRule "media" "print" [Rule ".x" [Decl "color" "red" false]]])
    (mkOut [] [])
  = inr (mkRoot "/* a */@media print{.x{color:red}}" [],
         mkOut [] ["." +:+ sample_hash "/* a */@media print{.x{color:red}}"]).
Proof.
  apply (@groupGlobalRules_nothing_to_group sample_utils).
  repeat constructor.
Defined.

End TransformMoreFacts.

(** * Properties of the loaders *)
Module LoadersFacts.
Import JsStringFacts Loaders.

Lemma compiled_pitches_from (calls : list (bool * bool)) (st : LoaderState) :
  compiled_pitches calls st
  = if negb (hasErrored st) && existsb forgot_plugin calls
    then mkLoaderState true (emitted st ++ [forgot_plugin_message])
    else st.
Proof.
  unfold compiled_pitches. revert st.
  induction calls as [|[extract present] calls IH]; intros st; simpl.
  - by rewrite andb_false_r.
  - rewrite IH. unfold compiled_pitch, forgot_plugin at 2.
    destruct st as [errored errors]. simpl.
    destruct errored, extract, present, (existsb forgot_plugin calls); reflexivity.
Qed.

(** X16. The compiled loader reports the missing extract plugin once:
    over any sequence of [pitch] calls in a fresh module, exactly one error
    is emitted if some call has [extract] on without the plugin, and none
    otherwise; [hasErrored] says which. *)
Theorem compiled_pitches_once (calls : list (bool * bool)) :
  emitted (compiled_pitches calls (mkLoaderState false []))
  = (if existsb forgot_plugin calls then [forgot_plugin_message] else [])
  ∧ hasErrored (compiled_pitches calls (mkLoaderState false []))
    = existsb forgot_plugin calls.
Proof.
  rewrite compiled_pitches_from. simpl.
  by destruct (existsb forgot_plugin calls).
Qed.

(** X18. With [extract] on, the loader's output is the code with one
    [require] line per found rule in front of it, the lines in the reverse
    of the order in which the rules were found; with [extract] off, or no
    rule found, it is the code unchanged. *)
Theorem loader_output_requires (toURIComponent : string → string) (extract : bool)
    (foundCSSRules : list string) (code : string) :
  loader_output toURIComponent extract foundCSSRules code
  = if extract
    then concat_lines (map (require_line toURIComponent) (rev foundCSSRules)) +:+ code
    else code.
Proof.
  unfold loader_output. destruct extract; simpl; [|done].
  destruct foundCSSRules as [|r rules]; [done|].
  rewrite bool_decide_eq_false_2 by done. cbv [negb].
  generalize (r :: rules). clear r rules. intros rules.
  induction rules as [|rule rules IH] using rev_ind; [done|].
  rewrite foldl_snoc, IH, rev_app_distr. simpl.
  by rewrite append_assoc.
Qed.

End LoadersFacts.
